(** * Heap sort helper of the Array.prototype.sort builtin

    Shallow embedding of
    [jerry-core/ecma/builtin-objects/ecma-builtin-helpers-sort.c]:
    [ecma_builtin_helper_array_to_heap] (sift-down with a held-aside value)
    and [ecma_builtin_helper_array_heap_sort_helper] (build the heap, then
    extract).  The C code works on a mutable array, calls a comparison
    callback that may fail, and releases the numbers the callback returns.
    All of that is kept: the embedding is a state monad over the array, the
    state of the callback and a trace of the array accesses, callback
    invocations and releases. *)

From stdpp Require Import base list numbers sorting.

Local Open Scope Z_scope.

(** [lia] is to decide goals with [/ 2] and [mod 2 ^ 32]. *)
Ltac Zify.zify_post_hook ::= Z.to_euclidean_division_equations.

(** ** Values and machine integers *)

(** [uint32_t] arithmetic wraps around. *)
Definition uint32 (z : Z) : Z := z mod 2 ^ 32.

(** Modelled from the spec: [ecma_value_t], declared in [ecma-globals.h],
    which is not among the sources.  The spec has opaque values, a "no
    value" sentinel, an error sentinel and numeric values that encode a
    sign: the two sentinels the code names, number values, and every other
    value as an opaque handle.  [ecma_number_t] is a floating point number in
    the engine; the code only tests it against zero, so an integer stands
    for it (a NaN, for which both tests are false, behaves as a positive
    number does). *)
Inductive ecma_value_t : Type :=
  | ECMA_VALUE_EMPTY
  | ECMA_VALUE_ERROR
  | ecma_make_number_value (n : Z)
  | ecma_make_object_value (h : Z).

#[global] Instance ecma_value_eq_dec : EqDecision ecma_value_t.
Proof. solve_decision. Defined.

(** Modelled from the spec: the constant and the three tests and accessors
    of [ecma-globals.h] and [ecma-helpers.h] that the code applies to what
    the callback returns (a failure marker, or a number whose sign is
    consulted). *)
Definition ECMA_NUMBER_ZERO : Z := 0.

Definition ECMA_IS_VALUE_ERROR (v : ecma_value_t) : bool :=
  match v with ECMA_VALUE_ERROR => true | _ => false end.

Definition ecma_is_value_number (v : ecma_value_t) : bool :=
  match v with ecma_make_number_value _ => true | _ => false end.

(** Only applied after [JERRY_ASSERT (ecma_is_value_number (v))]. *)
Definition ecma_get_number_from_value (v : ecma_value_t) : Z :=
  match v with ecma_make_number_value n => n | _ => 0 end.

(** What the code does that can be observed from outside. *)
Inductive event : Type :=
  | EvRead (i : Z) (v : ecma_value_t)      (* array_p[i] is read, it holds v *)
  | EvWrite (i : Z) (v : ecma_value_t)     (* array_p[i] = v *)
  | EvCall (a b r : ecma_value_t)          (* sort_cb (a, b, _) returned r *)
  | EvFree (v : ecma_value_t).             (* ecma_free_value (v) *)

(** Control leaving a loop body: on to the next iteration, or [break]. *)
Inductive ctl (L : Type) : Type :=
  | Next (l : L)
  | Brk (l : L).
Arguments Next {L} l.
Arguments Brk {L} l.

(** ** Callbacks to run the code on *)

(** Numeric subtraction, [a - b], of number values. *)
Definition number_cmp (a b : ecma_value_t) : Z :=
  ecma_get_number_from_value a - ecma_get_number_from_value b.

(** The callback that subtracts and never fails.  Its state counts the
    invocations. *)
Definition subtract_cb (a b _ : ecma_value_t) (calls : nat)
    : ecma_value_t * nat :=
  (ecma_make_number_value (number_cmp a b), S calls).

(** The same, failing at invocation number [k] (counted from 1). *)
Definition failing_cb (k : nat) (a b f : ecma_value_t) (calls : nat)
    : ecma_value_t * nat :=
  if decide (S calls = k) then (ECMA_VALUE_ERROR, S calls)
  else subtract_cb a b f calls.

(** The callback for which all values are equal: it returns 0 and never
    fails. *)
Definition equal_cb (a b _ : ecma_value_t) (calls : nat)
    : ecma_value_t * nat :=
  (ecma_make_number_value 0, S calls).

Definition numbers (l : list Z) : list ecma_value_t :=
  ecma_make_number_value <$> l.

Section Sort.

(** The state the comparison callback works on (it may run script code);
    the array being sorted is not part of it. *)
Variable world : Type.

(** [ecma_builtin_helper_sort_compare_fn_t]: two values and the compare
    function object in, a value out. *)
Variable sort_cb :
  ecma_value_t → ecma_value_t → ecma_value_t → world → ecma_value_t * world.

(** What a call works on: the array, the state of the callback, and the
    trace of what has been done so far. *)
Record machine : Type := Machine {
  array_p : list ecma_value_t;
  cb_state : world;
  trace : list event
}.

(** Append an event to the trace. *)
Definition log (e : event) (m : machine) : machine :=
  Machine (array_p m) (cb_state m) (trace m ++ [e]).

(** A run ends with a result, or is stopped: [Abort] when an assertion
    fails or an access falls outside the array, [OutOfFuel] when a [while]
    loop was given too few iterations. *)
Inductive result (A : Type) : Type :=
  | Done (a : A) (m : machine)
  | Abort
  | OutOfFuel.
Arguments Done {A} a m.
Arguments Abort {A}.
Arguments OutOfFuel {A}.

(** The monad of the embedding: state, with the two ways to stop. *)
Definition M (A : Type) : Type := machine → result A.

Definition ret {A} (a : A) : M A := λ m, Done a m.

Definition bind {A B} (c : M A) (k : A → M B) : M B :=
  λ m, match c m with
       | Done a m' => k a m'
       | Abort => Abort
       | OutOfFuel => OutOfFuel
       end.

#[global] Instance M_ret : MRet M := @ret.
#[global] Instance M_bind : MBind M := λ A B k c, bind c k.

(** [array_p[i]] as a value, and [array_p[i] = v].  An index outside the
    array is undefined behaviour in C: the run stops. *)
Definition read_array (i : Z) : M ecma_value_t :=
  λ m, if decide (i < 0) then Abort
       else match array_p m !! Z.to_nat i with
            | Some v => Done v (log (EvRead i v) m)
            | None => Abort
            end.

Definition write_array (i : Z) (v : ecma_value_t) : M unit :=
  λ m, if decide (0 ≤ i < Z.of_nat (length (array_p m)))
       then Done tt (Machine (<[Z.to_nat i := v]> (array_p m)) (cb_state m)
                             (trace m ++ [EvWrite i v]))
       else Abort.

(** [sort_cb (a, b, compare_func)]: the callback runs on its state. *)
Definition call_sort_cb (a b compare_func : ecma_value_t) : M ecma_value_t :=
  λ m, let '(r, w) := sort_cb a b compare_func (cb_state m) in
       Done r (Machine (array_p m) w (trace m ++ [EvCall a b r])).

(** Modelled from the spec: [ecma_free_value] of [ecma-helpers.h] releases a
    value the engine owns; the release is recorded in the trace. *)
Definition ecma_free_value (v : ecma_value_t) : M unit :=
  λ m, Done tt (log (EvFree v) m).

(** An assertion that fails stops the run. *)
Definition JERRY_ASSERT (b : bool) : M unit :=
  λ m, if b then Done tt m else Abort.

(** [while (cond) { body }] over the local variables [l]. *)
Fixpoint while {L} (fuel : nat) (cond : L → bool) (body : L → M (ctl L))
    (l : L) : M L :=
  λ m, if cond l then
         match fuel with
         | O => OutOfFuel
         | S fuel' =>
             match body l m with
             | Done (Next l') m' => while fuel' cond body l' m'
             | Done (Brk l') m' => Done l' m'
             | Abort => Abort
             | OutOfFuel => OutOfFuel
             end
         end
       else Done l m.

(** [for (i = n; i > 0; i--) { body }], where the body may [return]. *)
Fixpoint for_down {R} (n : nat) (body : Z → M (option R)) : M (option R) :=
  match n with
  | O => ret None
  | S n' =>
      r ← body (Z.of_nat n);
      match r with
      | Some v => ret (Some v)
      | None => for_down n' body
      end
  end.

(** ** [ecma_builtin_helper_array_to_heap] *)

(** Lines 41-61: with a right sibling, compare the two child nodes and use
    the greater one.  The locals are [(child, ret_value)]. *)
Definition to_heap_select_child (right : Z) (compare_func : ecma_value_t)
    (l : Z * ecma_value_t) : M (ctl (Z * ecma_value_t)) :=
  let '(child, ret_value) := l in
  if child <? right then
    a ← read_array child;
    b ← read_array (uint32 (child + 1));
    child_compare_value ← call_sort_cb a b compare_func;
    if ECMA_IS_VALUE_ERROR child_compare_value then
      ret (Brk (child, ECMA_VALUE_ERROR))
    else
      JERRY_ASSERT (ecma_is_value_number child_compare_value);;
      let child :=
        if ecma_get_number_from_value child_compare_value <? ECMA_NUMBER_ZERO
        then uint32 (child + 1) else child in
      ecma_free_value child_compare_value;;
      ret (Next (child, ret_value))
  else ret (Next (child, ret_value)).

(** Lines 63-91: compare the chosen child with [swap]; stop, or move the
    child up and go one level down. *)
Definition to_heap_compare_swap (right : Z) (swap compare_func : ecma_value_t)
    (l : Z * ecma_value_t) : M (ctl (Z * ecma_value_t)) :=
  let '(child, ret_value) := l in
  JERRY_ASSERT (child <=? right);;
  c ← read_array child;
  swap_compare_value ← call_sort_cb c swap compare_func;
  if ECMA_IS_VALUE_ERROR swap_compare_value then
    ret (Brk (child, ECMA_VALUE_ERROR))
  else
    JERRY_ASSERT (ecma_is_value_number swap_compare_value);;
    if ecma_get_number_from_value swap_compare_value <=? ECMA_NUMBER_ZERO then
      ecma_free_value swap_compare_value;;
      ret (Brk (child, ret_value))
    else
      let parent := uint32 (child - 1) / 2 in
      JERRY_ASSERT (parent <=? right);;
      c ← read_array child;
      write_array parent c;;
      let child := uint32 (child * 2 + 1) in
      ecma_free_value swap_compare_value;;
      ret (Next (child, ret_value)).

(** The body of the [while] loop, lines 40-92. *)
Definition to_heap_body (right : Z) (swap compare_func : ecma_value_t)
    (l : Z * ecma_value_t) : M (ctl (Z * ecma_value_t)) :=
  s ← to_heap_select_child right compare_func l;
  match s with
  | Brk l' => ret (Brk l')
  | Next l' => to_heap_compare_swap right swap compare_func l'
  end.

(** The loop, lines 39-92, from the locals [(child, ret_value)]. *)
Definition to_heap_loop (fuel : nat) (right : Z)
    (swap compare_func : ecma_value_t) (l : Z * ecma_value_t)
    : M (Z * ecma_value_t) :=
  while fuel (λ l, fst l <=? right) (to_heap_body right swap compare_func) l.

Definition ecma_builtin_helper_array_to_heap (fuel : nat) (index right : Z)
    (compare_func : ecma_value_t) : M ecma_value_t :=
  let child := uint32 (index * 2 + 1) in
  swap ← read_array index;
  let ret_value := ECMA_VALUE_EMPTY in
  l ← to_heap_loop fuel right swap compare_func (child, ret_value);
  let '(child, ret_value) := l in
  let parent := uint32 (child - 1) / 2 in
  JERRY_ASSERT (parent <=? right);;
  write_array parent swap;;
  ret ret_value.

(** ** [ecma_builtin_helper_array_heap_sort_helper] *)

(** Lines 118-126: construct the ordered binary tree. *)
Definition heap_sort_build (fuel : nat) (right : Z)
    (compare_func : ecma_value_t) : M (option ecma_value_t) :=
  for_down (Z.to_nat (uint32 (right / 2 + 1))) (λ i,
    value ← ecma_builtin_helper_array_to_heap fuel (uint32 (i - 1)) right
               compare_func;
    if ECMA_IS_VALUE_ERROR value then ret (Some value) else ret None).

(** Lines 129-146: move the top to the end and rebuild the tree over the
    remaining elements. *)
Definition heap_sort_extract (fuel : nat) (right : Z)
    (compare_func : ecma_value_t) : M (option ecma_value_t) :=
  for_down (Z.to_nat right) (λ i,
    swap ← read_array 0;
    t ← read_array i;
    write_array 0 t;;
    write_array i swap;;
    value ← ecma_builtin_helper_array_to_heap fuel 0 (uint32 (i - 1))
               compare_func;
    if ECMA_IS_VALUE_ERROR value then ret (Some value) else ret None).

Definition ecma_builtin_helper_array_heap_sort_helper (fuel : nat)
    (right : Z) (compare_func : ecma_value_t) : M ecma_value_t :=
  r ← heap_sort_build fuel right compare_func;
  match r with
  | Some value => ret value
  | None =>
      r ← heap_sort_extract fuel right compare_func;
      match r with
      | Some value => ret value
      | None => ret ECMA_VALUE_EMPTY
      end
  end.

(** ** Specifications *)

(** [wp c Q m]: run from [m], [c] ends with a result that satisfies [Q].
    [wlp c Q m]: if it ends with a result, that satisfies [Q]. *)
Definition wp {A} (c : M A) (Q : A → machine → Prop) (m : machine) : Prop :=
  match c m with Done a m' => Q a m' | _ => False end.

Definition wlp {A} (c : M A) (Q : A → machine → Prop) (m : machine) : Prop :=
  match c m with Done a m' => Q a m' | _ => True end.

(** What the code asserts of the callback (lines 52 and 74): the value it
    returns is the error value or a number. *)
Definition sort_cb_contract (f : ecma_value_t) : Prop :=
  ∀ a b w,
    ECMA_IS_VALUE_ERROR (sort_cb a b f w).1 = true
    ∨ ecma_is_value_number (sort_cb a b f w).1 = true.

(** An array access is to a slot in [[0, right]]. *)
Definition in_range (right : Z) (e : event) : Prop :=
  match e with
  | EvRead i _ | EvWrite i _ => 0 ≤ i ≤ right
  | _ => True
  end.

(** From [m] to [m'] the array kept its length and was accessed only in
    [[0, right]]. *)
Definition safe_post (right : Z) (m : machine) (m' : machine) : Prop :=
  length (array_p m') = length (array_p m)
  ∧ ∃ t, trace m' = trace m ++ t ∧ Forall (in_range right) t.

(** The first [n] slots are permuted, the others are as they were. *)
Definition pperm {A} (n : nat) (l' l : list A) : Prop :=
  take n l' ≡ₚ take n l ∧ drop n l' = drop n l.

(** The loop of [ecma_builtin_helper_array_to_heap] keeps one slot [p]
    (the parent of [child]) free for [swap]: with [swap] put there, the
    array is the initial one with its slots up to [right] permuted. *)
Definition hole_inv (right : Z) (swap : ecma_value_t)
    (arr0 : list ecma_value_t) (p : Z) (arr : list ecma_value_t) : Prop :=
  0 ≤ p ≤ right
  ∧ pperm (Z.to_nat (right + 1)) (<[Z.to_nat p := swap]> arr) arr0.

(** Invocations of the callback, and those that returned the error value. *)
Definition is_call (e : event) : Prop :=
  match e with EvCall _ _ _ => True | _ => False end.

Definition is_failed_call (e : event) : Prop :=
  match e with EvCall _ _ r => r = ECMA_VALUE_ERROR | _ => False end.

(** From the trace [tr0] on, no invocation has failed. *)
Definition no_failure (tr0 tr : list event) : Prop :=
  ∃ t, tr = tr0 ++ t ∧ Forall (λ e, ¬ is_failed_call e) t.

(** From the trace [tr0] on, one invocation has failed, none before it,
    and there is no invocation after it. *)
Definition failed_last (tr0 tr : list event) : Prop :=
  ∃ t1 a b t2,
    tr = tr0 ++ t1 ++ EvCall a b ECMA_VALUE_ERROR :: t2
    ∧ Forall (λ e, ¬ is_failed_call e) t1
    ∧ Forall (λ e, ¬ is_call e) t2.

(** A run ends well with no failed invocation, or with an error right
    after the one invocation that failed. *)
Definition failure_post {A} (ok : A → Prop) (err : A → Prop)
    (m : machine) (a : A) (m' : machine) : Prop :=
  (ok a ∧ no_failure (trace m) (trace m'))
  ∨ (err a ∧ failed_last (trace m) (trace m')).

(** Who holds a value the callback returned.  Nobody: [Idle].  The engine,
    from the invocation on: [Holding v]; the one thing it may do before the
    release of [v] is to move a child up, [array_p[(c - 1) / 2] =
    array_p[c]]: [Moving v c x] after the read of [x] at [c], [Moved v] after
    the write.  Nobody for good after a failed invocation: [Failed].
    [Violation]: an invocation, a release of something else or any other
    access while a value is held (the value is not released at once), a
    release with nothing held (a second release), an invocation or a release
    after the failure. *)
Inductive owner : Type :=
  | Idle
  | Holding (v : ecma_value_t)
  | Moving (v : ecma_value_t) (c : Z) (x : ecma_value_t)
  | Moved (v : ecma_value_t)
  | Failed
  | Violation.

Definition owner_step (o : owner) (e : event) : owner :=
  match e with
  | EvRead c x =>
      match o with
      | Idle => Idle
      | Holding v => Moving v c x
      | Failed => Failed
      | _ => Violation
      end
  | EvWrite p y =>
      match o with
      | Idle => Idle
      | Moving v c x =>
          if decide (p = (c - 1) `div` 2 ∧ y = x) then Moved v else Violation
      | Failed => Failed
      | _ => Violation
      end
  | EvCall _ _ r =>
      match o with
      | Idle => if ECMA_IS_VALUE_ERROR r then Failed else Holding r
      | _ => Violation
      end
  | EvFree u =>
      match o with
      | Holding v | Moved v => if decide (u = v) then Idle else Violation
      | _ => Violation
      end
  end.

(** The owner at the end of a trace that starts with nothing held. *)
Definition owner_after (t : list event) : owner := fold_left owner_step t Idle.

Definition owner_inv (tr0 : list event) (o : owner) (tr : list event)
    : Prop :=
  ∃ t, tr = tr0 ++ t ∧ owner_after t = o.

(** What an invocation returned. *)
Definition call_result (e : event) : option ecma_value_t :=
  match e with EvCall _ _ r => Some r | _ => None end.

(** What the invocations of the callback returned, in order. *)
Definition call_results (t : list event) : list ecma_value_t :=
  omap call_result t.

(** From [tr0] on, the invocations returned [cs]. *)
Definition calls_inv (tr0 : list event) (cs : list ecma_value_t)
    (tr : list event) : Prop :=
  ∃ t, tr = tr0 ++ t ∧ call_results t = cs.

(** From [tr0] on the callback has been invoked, and its first invocation
    did not fail. *)
Definition first_ok (tr0 tr : list event) : Prop :=
  ∃ r rest, calls_inv tr0 (r :: rest) tr ∧ r ≠ ECMA_VALUE_ERROR.

(** A call of [ecma_builtin_helper_array_to_heap] seen from the first
    invocation of the callback: it succeeded; or there was none, the loop was
    not entered and the array is as it was; or it failed, the error value is
    returned and the array is as it was. *)
Definition first_post (right index : Z) (m : machine) (v : ecma_value_t)
    (m' : machine) : Prop :=
  first_ok (trace m) (trace m')
  ∨ (calls_inv (trace m) [] (trace m') ∧ v = ECMA_VALUE_EMPTY
     ∧ array_p m' = array_p m ∧ right < 2 * index + 1)
  ∨ (calls_inv (trace m) [ECMA_VALUE_ERROR] (trace m')
     ∧ v = ECMA_VALUE_ERROR ∧ array_p m' = array_p m).

(** Traces in which every write is a move of a child to its parent:
    [array_p[(c - 1) / 2] = array_p[c]]. *)
Inductive child_moves : list event → Prop :=
  | cm_nil : child_moves []
  | cm_read t i v : child_moves t → child_moves (t ++ [EvRead i v])
  | cm_call t a b r : child_moves t → child_moves (t ++ [EvCall a b r])
  | cm_free t v : child_moves t → child_moves (t ++ [EvFree v])
  | cm_move t c v :
      child_moves t →
      child_moves (t ++ [EvRead c v; EvWrite ((c - 1) `div` 2) v]).

(** From [tr0] on, every write is such a move. *)
Definition cm_inv (tr0 tr : list event) : Prop :=
  ∃ t, tr = tr0 ++ t ∧ child_moves t.

(** The slot [i] of an array ([ECMA_VALUE_EMPTY] outside of it). *)
Definition slot (a : list ecma_value_t) (i : Z) : ecma_value_t :=
  default ECMA_VALUE_EMPTY (a !! Z.to_nat i).

(** The callback never fails: it returns [cmp a b], whatever its state. *)
Definition returns_cmp (cmp : ecma_value_t → ecma_value_t → Z)
  (compare_func : ecma_value_t) : Prop :=
  ∀ a b w, (sort_cb a b compare_func w).1 = ecma_make_number_value (cmp a b).

(** The sign of [cmp] is that of a total order (a total preorder: two
    values may compare equal): exchanging the arguments changes the sign,
    and "not after" ([cmp a b <= 0]) is transitive. *)
Definition sign_total_order (cmp : ecma_value_t → ecma_value_t → Z) : Prop :=
  (∀ a b, Z.sgn (cmp b a) = - Z.sgn (cmp a b))
  ∧ (∀ a b c, cmp a b ≤ 0 → cmp b c ≤ 0 → cmp a c ≤ 0).

(** The max-heap property of the slots [c <= right] whose parent
    [(c - 1) / 2] is at [lo] or after. *)
Definition heap_on (cmp : ecma_value_t → ecma_value_t → Z)
  (lo right : Z) (a : list ecma_value_t) : Prop :=
  ∀ c, 2 * lo + 1 ≤ c ≤ right → cmp (slot a c) (slot a ((c - 1) `div` 2)) ≤ 0.

(** The loop invariant of the sift-down from [index], with the free slot
    at [p]: every child is at most its parent, except for the children of
    [index] before the first move; [swap] is at most the parent of [p]. *)
Definition sift_inv (cmp : ecma_value_t → ecma_value_t → Z)
  (index right : Z) (swap : ecma_value_t) (p : Z)
  (a : list ecma_value_t) : Prop :=
  index ≤ p
  ∧ (∀ c, 2 * index + 1 ≤ c ≤ right →
          ((c - 1) `div` 2 = index → p ≠ index) →
          cmp (slot a c) (slot a ((c - 1) `div` 2)) ≤ 0)
  ∧ (index < p → cmp swap (slot a ((p - 1) `div` 2)) ≤ 0).

(** The children of [p] that exist are at most [swap]. *)
Definition children_le (cmp : ecma_value_t → ecma_value_t → Z)
  (right : Z) (swap : ecma_value_t) (p : Z)
  (a : list ecma_value_t) : Prop :=
  (2 * p + 1 ≤ right → cmp (slot a (2 * p + 1)) swap ≤ 0)
  ∧ (2 * p + 2 ≤ right → cmp (slot a (2 * p + 2)) swap ≤ 0).

(** The slots from [i] on are in order. *)
Definition sorted_from (cmp : ecma_value_t → ecma_value_t → Z)
  (i right : Z) (a : list ecma_value_t) : Prop :=
  ∀ k, i ≤ k < right → cmp (slot a k) (slot a (k + 1)) ≤ 0.

(** The invariant of the second loop when it is to exchange slots [0] and
    [i]: a heap up to [i], sorted after [i], and nothing up to [i]
    is after slot [i + 1]. *)
Definition extract_inv (cmp : ecma_value_t → ecma_value_t → Z)
  (right i : Z) (a : list ecma_value_t) : Prop :=
  heap_on cmp 0 i a
  ∧ sorted_from cmp (i + 1) right a
  ∧ (i < right → ∀ j, 0 ≤ j ≤ i → cmp (slot a j) (slot a (i + 1)) ≤ 0).

(** An array access is to a slot in [[lo, hi]]. *)
Definition in_window (lo hi : Z) (e : event) : Prop :=
  match e with
  | EvRead i _ | EvWrite i _ => lo ≤ i ≤ hi
  | _ => True
  end.

(** From [m] to [m'] the slots before [lo] are as they were and the array
    was accessed only in [[lo, hi]]. *)
Definition frame_post (lo hi : Z) (m m' : machine) : Prop :=
  take (Z.to_nat lo) (array_p m') = take (Z.to_nat lo) (array_p m)
  ∧ ∃ t, trace m' = trace m ++ t ∧ Forall (in_window lo hi) t.

(** From [tr0] on, the callback has been invoked at most [n] times. *)
Definition calls_le (tr0 : list event) (n : Z) (tr : list event) : Prop :=
  ∃ t, tr = tr0 ++ t ∧ Z.of_nat (length (call_results t)) ≤ n.

(** An invocation of the callback is with two values of [arr0]. *)
Definition call_args_in (arr0 : list ecma_value_t) (e : event) : Prop :=
  match e with
  | EvCall a b _ => a ∈ arr0 ∧ b ∈ arr0
  | _ => True
  end.

(** The array holds values of [arr0] only, and from [tr0] on the callback
    was invoked with values of [arr0] only. *)
Definition args_inv (arr0 : list ecma_value_t) (tr0 : list event)
    (m' : machine) : Prop :=
  (∀ x, x ∈ array_p m' → x ∈ arr0)
  ∧ ∃ t, trace m' = tr0 ++ t ∧ Forall (call_args_in arr0) t.

(** From [tr0] on the callback has been invoked. *)
Definition invoked (tr0 tr : list event) : Prop :=
  ∃ t, tr = tr0 ++ t ∧ call_results t ≠ [].

(** The callback never fails and never answers "after": it returns a
    number that is at most zero, whatever its state.  A callback for which
    all values are equal (it returns 0) is one. *)
Definition never_after (compare_func : ecma_value_t) : Prop :=
  ∀ a b w, ∃ n,
    (sort_cb a b compare_func w).1 = ecma_make_number_value n ∧ n ≤ 0.

(** ** Reasoning about runs *)

Lemma wp_done {A} (c : M A) Q m :
  wp c Q m ↔ ∃ a m', c m = Done a m' ∧ Q a m'.
Proof.
  unfold wp. destruct (c m) as [a m'| |]; split.
  - eauto.
  - by intros (? & ? & [= -> ->] & ?).
  - done.
  - by intros (? & ? & ? & ?).
  - done.
  - by intros (? & ? & ? & ?).
Qed.

Lemma wlp_done {A} (c : M A) Q m a m' :
  wlp c Q m → c m = Done a m' → Q a m'.
Proof. unfold wlp. intros H E. by rewrite E in H. Qed.

Lemma wp_wlp {A} (c : M A) Q1 Q2 m :
  wp c Q1 m → wlp c Q2 m → wp c (λ a m', Q1 a m' ∧ Q2 a m') m.
Proof. unfold wp, wlp. by destruct (c m). Qed.

Lemma wp_mono {A} (c : M A) (Q1 Q2 : A → machine → Prop) m :
  wp c Q1 m → (∀ a m', Q1 a m' → Q2 a m') → wp c Q2 m.
Proof. unfold wp. destruct (c m); naive_solver. Qed.

Lemma wlp_mono {A} (c : M A) (Q1 Q2 : A → machine → Prop) m :
  wlp c Q1 m → (∀ a m', Q1 a m' → Q2 a m') → wlp c Q2 m.
Proof. unfold wlp. destruct (c m); naive_solver. Qed.

Lemma wlp_conj {A} (c : M A) Q1 Q2 m :
  wlp c Q1 m → wlp c Q2 m → wlp c (λ a m', Q1 a m' ∧ Q2 a m') m.
Proof. unfold wlp. by destruct (c m). Qed.

Lemma wp_ret {A} (a : A) (Q : A → machine → Prop) m : Q a m → wp (ret a) Q m.
Proof. done. Qed.

Lemma wlp_ret {A} (a : A) (Q : A → machine → Prop) m : Q a m → wlp (ret a) Q m.
Proof. done. Qed.

Lemma wp_bind {A B} (c : M A) (k : A → M B) Q m :
  wp c (λ a m', wp (k a) Q m') m → wp (c ≫= k) Q m.
Proof. unfold wp, mbind, M_bind, bind. by destruct (c m). Qed.

Lemma wlp_bind {A B} (c : M A) (k : A → M B) Q m :
  wlp c (λ a m', wlp (k a) Q m') m → wlp (c ≫= k) Q m.
Proof. unfold wlp, mbind, M_bind, bind. by destruct (c m). Qed.

Lemma wp_read i (Q : ecma_value_t → machine → Prop) m v :
  0 ≤ i → array_p m !! Z.to_nat i = Some v → Q v (log (EvRead i v) m) →
  wp (read_array i) Q m.
Proof.
  intros Hi Hv HQ. unfold wp, read_array.
  destruct (decide (i < 0)); [lia|]. by rewrite Hv.
Qed.

Lemma wlp_read i (Q : ecma_value_t → machine → Prop) m :
  (∀ v, 0 ≤ i → array_p m !! Z.to_nat i = Some v → Q v (log (EvRead i v) m)) →
  wlp (read_array i) Q m.
Proof.
  intros HQ. unfold wlp, read_array.
  destruct (decide (i < 0)); [done|].
  destruct (array_p m !! Z.to_nat i) eqn:Hv; [|done]. apply HQ; [lia|done].
Qed.

Lemma wp_write i v (Q : unit → machine → Prop) m :
  0 ≤ i < Z.of_nat (length (array_p m)) →
  Q tt (Machine (<[Z.to_nat i := v]> (array_p m)) (cb_state m)
                (trace m ++ [EvWrite i v])) →
  wp (write_array i v) Q m.
Proof.
  intros Hi HQ. unfold wp, write_array.
  by destruct (decide (0 ≤ i < Z.of_nat (length (array_p m)))).
Qed.

Lemma wlp_write i v (Q : unit → machine → Prop) m :
  (0 ≤ i < Z.of_nat (length (array_p m)) →
   Q tt (Machine (<[Z.to_nat i := v]> (array_p m)) (cb_state m)
                 (trace m ++ [EvWrite i v]))) →
  wlp (write_array i v) Q m.
Proof.
  intros HQ. unfold wlp, write_array.
  destruct (decide (0 ≤ i < Z.of_nat (length (array_p m)))); [auto|done].
Qed.

Lemma wp_call a b f (Q : ecma_value_t → machine → Prop) m :
  (∀ r w, sort_cb a b f (cb_state m) = (r, w) →
          Q r (Machine (array_p m) w (trace m ++ [EvCall a b r]))) →
  wp (call_sort_cb a b f) Q m.
Proof.
  intros HQ. unfold wp, call_sort_cb.
  destruct (sort_cb a b f (cb_state m)) as [r w] eqn:E. by apply HQ.
Qed.

Lemma wlp_call a b f (Q : ecma_value_t → machine → Prop) m :
  (∀ r w, sort_cb a b f (cb_state m) = (r, w) →
          Q r (Machine (array_p m) w (trace m ++ [EvCall a b r]))) →
  wlp (call_sort_cb a b f) Q m.
Proof.
  intros HQ. unfold wlp, call_sort_cb.
  destruct (sort_cb a b f (cb_state m)) as [r w] eqn:E. by apply HQ.
Qed.

Lemma wp_free v (Q : unit → machine → Prop) m :
  Q tt (log (EvFree v) m) → wp (ecma_free_value v) Q m.
Proof. done. Qed.

Lemma wlp_free v (Q : unit → machine → Prop) m :
  Q tt (log (EvFree v) m) → wlp (ecma_free_value v) Q m.
Proof. done. Qed.

Lemma wp_assert b (Q : unit → machine → Prop) m :
  b = true → Q tt m → wp (JERRY_ASSERT b) Q m.
Proof. by intros -> ?. Qed.

Lemma wlp_assert b (Q : unit → machine → Prop) m :
  (b = true → Q tt m) → wlp (JERRY_ASSERT b) Q m.
Proof. unfold wlp, JERRY_ASSERT. destruct b; auto. Qed.

(** The loop rules.  For [wp] a variant bounds the iterations by the fuel. *)
Lemma wp_while {L} (Inv : L → machine → Prop) (V : L → nat)
    (Q : L → machine → Prop) fuel cond body l m :
  Inv l m → (V l < fuel)%nat →
  (∀ l m, Inv l m → cond l = true →
     wp (body l) (λ c m', match c with
                          | Next l' => Inv l' m' ∧ (V l' < V l)%nat
                          | Brk l' => Q l' m'
                          end) m) →
  (∀ l m, Inv l m → cond l = false → Q l m) →
  wp (while fuel cond body l) Q m.
Proof.
  intros HI HV Hbody Hexit. revert l m HI HV.
  induction fuel as [|fuel IH]; intros l m HI HV; [lia|].
  unfold wp. simpl. destruct (cond l) eqn:Hc; [|by apply Hexit].
  specialize (Hbody l m HI Hc). unfold wp in Hbody.
  destruct (body l m) as [[l'|l'] m'| |]; try done.
  destruct Hbody as [HI' HV']. apply IH; [done|lia].
Qed.

Lemma wlp_while {L} (Inv : L → machine → Prop)
    (Q : L → machine → Prop) fuel cond body l m :
  Inv l m →
  (∀ l m, Inv l m → cond l = true →
     wlp (body l) (λ c m', match c with
                           | Next l' => Inv l' m'
                           | Brk l' => Q l' m'
                           end) m) →
  (∀ l m, Inv l m → cond l = false → Q l m) →
  wlp (while fuel cond body l) Q m.
Proof.
  intros HI Hbody Hexit. revert l m HI.
  induction fuel as [|fuel IH]; intros l m HI; unfold wlp; simpl;
    (destruct (cond l) eqn:Hc; [|by apply Hexit]); [done|].
  specialize (Hbody l m HI Hc). unfold wlp in Hbody.
  destruct (body l m) as [[l'|l'] m'| |]; try done.
  by apply IH.
Qed.

Lemma wp_for_down {R} (Inv : Z → machine → Prop)
    (Q : option R → machine → Prop) n body m :
  Inv (Z.of_nat n) m →
  (∀ i m, 0 < i ≤ Z.of_nat n → Inv i m →
     wp (body i) (λ r m', match r with
                          | Some v => Q (Some v) m'
                          | None => Inv (i - 1) m'
                          end) m) →
  (∀ m, Inv 0 m → Q None m) →
  wp (for_down n body) Q m.
Proof.
  intros HI Hbody Hexit. revert m HI.
  induction n as [|n IH]; intros m HI; [by apply Hexit|].
  simpl. apply wp_bind. eapply wp_mono; [apply Hbody; [lia|done]|].
  intros [v|] m' H; [done|]. simpl in H.
  apply IH.
  - intros i m0 Hi. apply Hbody. lia.
  - by replace (Z.of_nat n) with (Z.of_nat (S n) - 1) by lia.
Qed.

Lemma wlp_for_down {R} (Inv : Z → machine → Prop)
    (Q : option R → machine → Prop) n body m :
  Inv (Z.of_nat n) m →
  (∀ i m, 0 < i ≤ Z.of_nat n → Inv i m →
     wlp (body i) (λ r m', match r with
                           | Some v => Q (Some v) m'
                           | None => Inv (i - 1) m'
                           end) m) →
  (∀ m, Inv 0 m → Q None m) →
  wlp (for_down n body) Q m.
Proof.
  intros HI Hbody Hexit. revert m HI.
  induction n as [|n IH]; intros m HI; [by apply Hexit|].
  simpl. apply wlp_bind. eapply wlp_mono; [apply Hbody; [lia|done]|].
  intros [v|] m' H; [done|]. simpl in H.
  apply IH.
  - intros i m0 Hi. apply Hbody. lia.
  - by replace (Z.of_nat n) with (Z.of_nat (S n) - 1) by lia.
Qed.

(** ** Proof automation *)

Lemma uint32_small z : 0 ≤ z < 2 ^ 32 → uint32 z = z.
Proof. intros. unfold uint32. by apply Z.mod_small. Qed.

Lemma wp_read_in i (Q : ecma_value_t → machine → Prop) m :
  0 ≤ i < Z.of_nat (length (array_p m)) →
  (∀ v, array_p m !! Z.to_nat i = Some v → Q v (log (EvRead i v) m)) →
  wp (read_array i) Q m.
Proof.
  intros Hi HQ. destruct (lookup_lt_is_Some_2 (array_p m) (Z.to_nat i)) as [v Hv];
    [lia|]. eapply wp_read; [lia|done|auto].
Qed.

Lemma trace_snoc (P : event → Prop) (tr0 tr : list event) e :
  (∃ t, tr = tr0 ++ t ∧ Forall P t) → P e →
  ∃ t, tr ++ [e] = tr0 ++ t ∧ Forall P t.
Proof.
  intros (t & -> & Ht) He. exists (t ++ [e]). split; [by rewrite app_assoc|].
  apply Forall_app. auto.
Qed.

Lemma trace_start (P : event → Prop) (tr0 : list event) :
  ∃ t, tr0 = tr0 ++ t ∧ Forall P t.
Proof. exists []. by rewrite app_nil_r. Qed.

Ltac bool_hyps :=
  repeat match goal with
  | H : (_ <? _) = true |- _ => apply Z.ltb_lt in H
  | H : (_ <? _) = false |- _ => apply Z.ltb_ge in H
  | H : (_ <=? _) = true |- _ => apply Z.leb_le in H
  | H : (_ <=? _) = false |- _ => apply Z.leb_gt in H
  end.

Ltac u32 := rewrite ?uint32_small in * by (simpl in *; lia).

Ltac norm :=
  cbv beta iota delta [ECMA_NUMBER_ZERO] in *;
  cbn beta iota delta
    [array_p cb_state trace log fst snd
     ECMA_IS_VALUE_ERROR ecma_is_value_number ecma_get_number_from_value]
    in *;
  bool_hyps.

Ltac wlp_step :=
  norm;
  lazymatch goal with
  | |- wlp (_ ≫= _) _ _ => apply wlp_bind
  | |- wlp (ret _) _ _ => apply wlp_ret
  | |- wlp (read_array _) _ _ => apply wlp_read; intros ? ? ?
  | |- wlp (write_array _ _) _ _ => apply wlp_write; intros ?
  | |- wlp (call_sort_cb _ _ _) _ _ =>
      let r := fresh "r" in apply wlp_call; intros r ? ?; destruct r
  | |- wlp (ecma_free_value _) _ _ => apply wlp_free
  | |- wlp (JERRY_ASSERT _) _ _ => apply wlp_assert; intros ?
  | |- wlp (if ?b then _ else _) _ _ => destruct b eqn:?
  | |- wlp (let _ := ?e in _) _ _ =>
      lazymatch e with
      | (if ?b then _ else _) => destruct b eqn:?
      | _ => idtac
      end; cbv zeta
  end; norm; try discriminate; u32.

(** The cases of what the callback returned, by its contract. *)
Ltac cb_cases :=
  match goal with
  | Hcontract : sort_cb_contract ?f, H : sort_cb ?a ?b ?f ?w = (?r, _) |- _ =>
      let Hc := fresh in
      pose proof (Hcontract a b w) as Hc; rewrite H in Hc; simpl in Hc;
      destruct r; simpl in Hc; try (by destruct Hc); clear Hc
  end.

Ltac wp_step :=
  norm;
  lazymatch goal with
  | |- wp (_ ≫= _) _ _ => apply wp_bind
  | |- wp (ret _) _ _ => apply wp_ret
  | |- wp (read_array _) _ _ =>
      apply wp_read_in; [simpl; rewrite ?length_insert; lia|intros ? ?]
  | |- wp (write_array _ _) _ _ =>
      apply wp_write; [simpl; rewrite ?length_insert; lia|]
  | |- wp (call_sort_cb _ _ _) _ _ => apply wp_call; intros ? ? ?; cb_cases
  | |- wp (ecma_free_value _) _ _ => apply wp_free
  | |- wp (JERRY_ASSERT _) _ _ =>
      apply wp_assert; [norm; u32; first [done | apply Z.leb_le; lia]|]
  | |- wp (if ?b then _ else _) _ _ => destruct b eqn:?
  | |- wp (let _ := ?e in _) _ _ =>
      lazymatch e with
      | (if ?b then _ else _) => destruct b eqn:?
      | _ => idtac
      end; cbv zeta
  end; norm; u32.

(** ** Safety: the accesses stay in [[0, right]], the assertions hold *)

Ltac safe_leaf :=
  split; simpl;
  [ rewrite ?length_insert; done
  | repeat (apply trace_snoc; [|first [done | simpl; lia]]);
    first [done | apply trace_start] ].

Lemma to_heap_body_safe right swap f m0 child m :
  sort_cb_contract f → 2 * right + 2 < 2 ^ 32 →
  right < Z.of_nat (length (array_p m0)) →
  1 ≤ child ≤ right → safe_post right m0 m →
  wp (to_heap_body right swap f (child, ECMA_VALUE_EMPTY))
     (λ c m', safe_post right m0 m' ∧
              match c with
              | Next (child', r) => child < child' ≤ 2 * right + 1 ∧ r = ECMA_VALUE_EMPTY
              | Brk (child', r) => 1 ≤ child' ≤ right ∧
                  (r = ECMA_VALUE_EMPTY ∨ r = ECMA_VALUE_ERROR)
              end) m.
Proof.
  intros Hcb Hr Hlen Hc [Hl Ht]. destruct m as [arr w tr]. simpl in *.
  cbv beta delta [to_heap_body to_heap_select_child to_heap_compare_swap].
  repeat wp_step; (split; [safe_leaf|auto with lia]).
Qed.

Lemma safe_post_refl right m : safe_post right m m.
Proof. split; [done|apply trace_start]. Qed.

Lemma safe_post_trans right m1 m2 m3 :
  safe_post right m1 m2 → safe_post right m2 m3 → safe_post right m1 m3.
Proof.
  intros [Hl1 (t1 & Ht1 & HP1)] [Hl2 (t2 & Ht2 & HP2)]. split; [congruence|].
  exists (t1 ++ t2). split; [by rewrite Ht2, Ht1, app_assoc|].
  apply Forall_app. auto.
Qed.

Lemma safe_post_weaken right right' m m' :
  right ≤ right' → safe_post right m m' → safe_post right' m m'.
Proof.
  intros Hr [Hl (t & Ht & HP)]. split; [done|]. exists t. split; [done|].
  apply Forall_forall. intros e He. rewrite Forall_forall in HP.
  specialize (HP e He). destruct e; simpl in *; lia.
Qed.

Lemma to_heap_safe fuel index right f m :
  sort_cb_contract f → 2 * right + 2 < 2 ^ 32 → 0 ≤ index ≤ right →
  right < Z.of_nat (length (array_p m)) → right < Z.of_nat fuel →
  wp (ecma_builtin_helper_array_to_heap fuel index right f)
     (λ v m', (v = ECMA_VALUE_EMPTY ∨ v = ECMA_VALUE_ERROR)
              ∧ safe_post right m m') m.
Proof.
  intros Hcb Hr Hi Hlen Hfuel.
  cbv beta delta [ecma_builtin_helper_array_to_heap to_heap_loop].
  do 3 wp_step. wp_step.
  eapply wp_mono.
  { apply wp_while with
      (Inv := λ l m', safe_post right m m' ∧ 1 ≤ l.1 ≤ 2 * right + 1
                      ∧ l.2 = ECMA_VALUE_EMPTY)
      (V := λ l, Z.to_nat (right + 1 - l.1))
      (Q := λ l m', safe_post right m m' ∧ 1 ≤ l.1 ≤ 2 * right + 1
                    ∧ (l.2 = ECMA_VALUE_EMPTY ∨ l.2 = ECMA_VALUE_ERROR)).
    - split; [|simpl; split; [lia|done]]. destruct m; safe_leaf.
    - simpl; lia.
    - intros [child r] m1 (Hs & Hc & Hret) Hcond. norm. subst r.
      eapply wp_mono.
      { apply (to_heap_body_safe right v f m); try done. lia. }
      intros [[child' r']|[child' r']] m2 [Hs' H']; simpl in *.
      + split; [|lia]. split; [done|]. split; [lia|tauto].
      + split; [done|]. split; [lia|tauto].
    - intros [child r] m1 (Hs & Hc & Hret) Hcond. simpl in *. auto. }
  intros [child r] m1 (Hs & Hc & Hret). simpl in *.
  destruct Hs as [Hl Ht]. destruct m1 as [arr1 w1 tr1]. simpl in *.
  repeat wp_step. split; [done|]. safe_leaf.
Qed.

Lemma heap_sort_build_safe fuel right f m :
  sort_cb_contract f → 2 * right + 2 < 2 ^ 32 → 0 ≤ right →
  right < Z.of_nat (length (array_p m)) → right < Z.of_nat fuel →
  wp (heap_sort_build fuel right f)
     (λ r m', (r = None ∨ r = Some ECMA_VALUE_ERROR) ∧ safe_post right m m') m.
Proof.
  intros Hcb Hr H0 Hlen Hfuel. unfold heap_sort_build.
  rewrite uint32_small by lia.
  apply wp_for_down with (Inv := λ _ m', safe_post right m m').
  - apply safe_post_refl.
  - intros i m1 Hi Hs. rewrite uint32_small by lia. wp_step.
    eapply wp_mono.
    { apply to_heap_safe; try done; [lia|]. destruct Hs as [-> _]. done. }
    intros v m2 [Hv Hs2]. simpl.
    assert (safe_post right m m2) by (by eapply safe_post_trans).
    destruct Hv as [-> | ->]; wp_step; auto.
  - auto.
Qed.

Lemma heap_sort_extract_safe fuel right f m :
  sort_cb_contract f → 2 * right + 2 < 2 ^ 32 → 0 ≤ right →
  right < Z.of_nat (length (array_p m)) → right < Z.of_nat fuel →
  wp (heap_sort_extract fuel right f)
     (λ r m', (r = None ∨ r = Some ECMA_VALUE_ERROR) ∧ safe_post right m m') m.
Proof.
  intros Hcb Hr H0 Hlen Hfuel. unfold heap_sort_extract.
  apply wp_for_down with (Inv := λ _ m', safe_post right m m').
  - apply safe_post_refl.
  - intros i m1 Hi Hs.
    assert (length (array_p m1) = length (array_p m)) as Hl1 by apply Hs.
    do 2 wp_step. do 2 wp_step. do 2 wp_step. do 2 wp_step. wp_step.
    eapply wp_mono.
    { apply to_heap_safe; try done; simpl; rewrite ?length_insert; lia. }
    intros r m2 [Hr2 Hs2]. simpl.
    assert (safe_post right m m2).
    { eapply safe_post_trans; [exact Hs|].
      eapply safe_post_trans;
        [|eapply (safe_post_weaken (i - 1) right); [lia|exact Hs2]].
      destruct m1. safe_leaf. }
    destruct Hr2 as [-> | ->]; wp_step; auto.
  - auto.
Qed.

Lemma heap_sort_safe fuel right f m :
  sort_cb_contract f → 2 * right + 2 < 2 ^ 32 → 0 ≤ right →
  right < Z.of_nat (length (array_p m)) → right < Z.of_nat fuel →
  wp (ecma_builtin_helper_array_heap_sort_helper fuel right f)
     (λ v m', (v = ECMA_VALUE_EMPTY ∨ v = ECMA_VALUE_ERROR)
              ∧ safe_post right m m') m.
Proof.
  intros Hcb Hr H0 Hlen Hfuel.
  unfold ecma_builtin_helper_array_heap_sort_helper. wp_step.
  eapply wp_mono; [by apply heap_sort_build_safe|].
  intros r m1 [Hv Hs]. simpl. destruct Hv as [-> | ->].
  - wp_step. eapply wp_mono.
    { apply heap_sort_extract_safe; try done. by destruct Hs as [-> _]. }
    intros r m2 [Hv Hs2]. simpl.
    assert (safe_post right m m2) by (by eapply safe_post_trans).
    destruct Hv as [-> | ->]; wp_step; auto.
  - wp_step. auto.
Qed.

(** ** The array is only permuted *)

Lemma insert_head_perm {A} (l : list A) j x y :
  l !! j = Some y → y :: <[j := x]> l ≡ₚ x :: l.
Proof.
  revert j. induction l as [|a l IH]; intros [|j] Hj; simplify_eq/=.
  - apply perm_swap.
  - rewrite (perm_swap a y), (perm_swap a x). f_equiv. by apply IH.
Qed.

(** Exchanging two slots permutes the list. *)
Lemma insert_swap_perm {A} (l : list A) i j x y :
  l !! i = Some x → l !! j = Some y → <[i := y]> (<[j := x]> l) ≡ₚ l.
Proof.
  revert i j. induction l as [|a l IH]; intros [|i] [|j] Hi Hj; simplify_eq/=.
  - done.
  - by apply insert_head_perm.
  - symmetry. symmetry. by apply insert_head_perm.
  - f_equiv. by apply IH.
Qed.

Lemma pperm_refl {A} n (l : list A) : pperm n l l.
Proof. done. Qed.

Lemma pperm_trans {A} n (l1 l2 l3 : list A) :
  pperm n l1 l2 → pperm n l2 l3 → pperm n l1 l3.
Proof. intros [H1 H2] [H3 H4]. split; [by etrans|congruence]. Qed.

Lemma pperm_perm {A} n (l' l : list A) : pperm n l' l → l' ≡ₚ l.
Proof.
  intros [Hp Hd]. rewrite <-(take_drop n l'), <-(take_drop n l).
  by rewrite Hp, Hd.
Qed.

Lemma pperm_length {A} n (l' l : list A) : pperm n l' l → length l' = length l.
Proof. intros H. by apply Permutation_length, (pperm_perm n). Qed.

Lemma pperm_swap {A} n (l : list A) i j x y :
  (i < n)%nat → (j < n)%nat → l !! i = Some x → l !! j = Some y →
  pperm n (<[i := y]> (<[j := x]> l)) l.
Proof.
  intros Hi Hj Hx Hy. split.
  - rewrite !take_insert_lt by done.
    apply insert_swap_perm; by rewrite lookup_take_lt.
  - by rewrite !drop_insert_lt by lia.
Qed.

Lemma hole_inv_start right swap arr index :
  0 ≤ index ≤ right → arr !! Z.to_nat index = Some swap →
  hole_inv right swap arr index arr.
Proof. intros Hi Hs. split; [done|]. by rewrite list_insert_id. Qed.

Lemma hole_inv_move right swap arr0 p arr c v q p' :
  hole_inv right swap arr0 p arr → arr !! Z.to_nat c = Some v →
  (c = 2 * p + 1 ∨ c = 2 * p + 2) → c ≤ right → q = p → p' = c →
  (Z.to_nat q < length arr)%nat →
  hole_inv right swap arr0 p' (<[Z.to_nat q := v]> arr).
Proof.
  intros [Hp Hperm] Hv Hc Hcr -> -> Hlen. split; [lia|].
  eapply pperm_trans; [|exact Hperm].
  assert (Z.to_nat p ≠ Z.to_nat c) by lia.
  rewrite <-(list_insert_insert_eq arr (Z.to_nat p) v swap).
  apply pperm_swap; try lia.
  - by rewrite list_lookup_insert_ne.
  - by rewrite list_lookup_insert_eq.
Qed.

Lemma hole_inv_fill right swap arr0 p arr :
  hole_inv right swap arr0 p arr →
  pperm (Z.to_nat (right + 1)) (<[Z.to_nat p := swap]> arr) arr0.
Proof. by intros [_ ?]. Qed.

Ltac list_len :=
  repeat match goal with
  | H : _ !! _ = Some _ |- _ => apply lookup_lt_Some in H
  end; rewrite ?length_insert in *; simpl in *; lia.

Ltac perm_leaf :=
  lazymatch goal with
  | Hh : hole_inv _ _ _ ?hp ?arr |- _ ∧ hole_inv _ _ _ ?hp' ?arr =>
      split; [lia|]; replace hp' with hp by lia; exact Hh
  | Hh : hole_inv _ _ _ ?hp ?arr
    |- _ ∧ _ ∧ hole_inv _ _ _ _ (<[_ := _]> ?arr) =>
      split; [lia|split; [lia|]];
      eapply hole_inv_move with (p := hp);
      [exact Hh | eassumption | lia | lia | lia | lia | list_len]
  end.

Lemma to_heap_body_perm right swap arr0 f child r m :
  2 * right + 2 < 2 ^ 32 →
  1 ≤ child → child `mod` 2 = 1 →
  hole_inv right swap arr0 ((child - 1) `div` 2) (array_p m) →
  wlp (to_heap_body right swap f (child, r))
      (λ c m', match c with
               | Next l' =>
                   1 ≤ l'.1 ∧ l'.1 `mod` 2 = 1
                   ∧ hole_inv right swap arr0 ((l'.1 - 1) `div` 2) (array_p m')
               | Brk l' =>
                   1 ≤ l'.1
                   ∧ hole_inv right swap arr0 ((l'.1 - 1) `div` 2) (array_p m')
               end) m.
Proof.
  intros Hr Hc Hodd Hh. destruct m as [arr w tr]. simpl in *.
  cbv beta delta [to_heap_body to_heap_select_child to_heap_compare_swap].
  repeat wlp_step; perm_leaf.
Qed.

Lemma to_heap_perm fuel index right f m :
  2 * right + 2 < 2 ^ 32 → 0 ≤ index ≤ right →
  wlp (ecma_builtin_helper_array_to_heap fuel index right f)
      (λ _ m', pperm (Z.to_nat (right + 1)) (array_p m') (array_p m)) m.
Proof.
  intros Hr Hi.
  cbv beta delta [ecma_builtin_helper_array_to_heap to_heap_loop].
  do 3 wlp_step. rename v into swap. wlp_step.
  eapply wlp_mono.
  { apply wlp_while with
      (Inv := λ l m', 1 ≤ l.1 ∧ l.1 `mod` 2 = 1
                      ∧ hole_inv right swap (array_p m) ((l.1 - 1) `div` 2)
                          (array_p m'))
      (Q := λ l m', 1 ≤ l.1
                    ∧ hole_inv right swap (array_p m) ((l.1 - 1) `div` 2)
                        (array_p m')).
    - simpl. split; [lia|]. split; [lia|].
      replace ((index * 2 + 1 - 1) `div` 2) with index by lia.
      by apply hole_inv_start.
    - intros [child r] m1 (Hc & Hodd & Hh) _. simpl in *.
      by apply to_heap_body_perm.
    - intros [child r] m1 (Hc & Hodd & Hh) _. simpl in *. done. }
  intros [child r] m1 [Hc Hh]. simpl in *.
  assert (0 ≤ (child - 1) `div` 2 ≤ right) by apply Hh.
  repeat wlp_step. by apply hole_inv_fill.
Qed.

Lemma heap_sort_build_perm fuel right f m :
  2 * right + 2 < 2 ^ 32 → 0 ≤ right →
  wlp (heap_sort_build fuel right f) (λ _ m', array_p m' ≡ₚ array_p m) m.
Proof.
  intros Hr H0. unfold heap_sort_build. rewrite uint32_small by lia.
  apply wlp_for_down with (Inv := λ _ m', array_p m' ≡ₚ array_p m); [done| |done].
  intros i m1 Hi Hp. rewrite uint32_small by lia. wlp_step.
  eapply wlp_mono; [apply to_heap_perm; [done|lia]|].
  intros v m2 Hp2. simpl in Hp2. apply pperm_perm in Hp2.
  assert (array_p m2 ≡ₚ array_p m) by (by etrans).
  repeat wlp_step; done.
Qed.

Lemma heap_sort_extract_perm fuel right f m :
  2 * right + 2 < 2 ^ 32 → 0 ≤ right →
  wlp (heap_sort_extract fuel right f) (λ _ m', array_p m' ≡ₚ array_p m) m.
Proof.
  intros Hr H0. unfold heap_sort_extract.
  apply wlp_for_down with (Inv := λ _ m', array_p m' ≡ₚ array_p m); [done| |done].
  intros i m1 Hi Hp. destruct m1 as [arr1 w1 tr1]. simpl in *.
  do 2 wlp_step. do 2 wlp_step. do 2 wlp_step. do 2 wlp_step. wlp_step.
  eapply wlp_mono; [apply to_heap_perm; [lia|lia]|].
  intros r m2 Hp2. simpl in Hp2. apply pperm_perm in Hp2.
  assert (array_p m2 ≡ₚ array_p m).
  { rewrite Hp2, <-Hp. by apply insert_swap_perm. }
  repeat wlp_step; done.
Qed.

Lemma heap_sort_perm fuel right f m :
  2 * right + 2 < 2 ^ 32 → 0 ≤ right →
  wlp (ecma_builtin_helper_array_heap_sort_helper fuel right f)
      (λ _ m', array_p m' ≡ₚ array_p m) m.
Proof.
  intros Hr H0. unfold ecma_builtin_helper_array_heap_sort_helper. wlp_step.
  eapply wlp_mono; [by apply heap_sort_build_perm|].
  intros [v|] m1 Hp; simpl; [by wlp_step|]. wlp_step.
  eapply wlp_mono; [by apply heap_sort_extract_perm|].
  intros r m2 Hp2. simpl in Hp2.
  assert (array_p m2 ≡ₚ array_p m) by (by etrans).
  destruct r; by wlp_step.
Qed.

(** C1.  Whatever the comparison callback does within its contract (a
    number or the error value at each invocation, in any order, depending
    on its state in any way: so also failing at its k-th invocation, for
    any k), the call returns, with or without the error value, and the
    array it leaves is a permutation of the array it was given. *)
Theorem heap_sort_permutation fuel right compare_func arr w tr :
  sort_cb_contract compare_func →
  0 ≤ right → Z.of_nat (length arr) = right + 1 → 2 * right + 2 < 2 ^ 32 →
  right < Z.of_nat fuel →
  ∃ v m',
    ecma_builtin_helper_array_heap_sort_helper fuel right compare_func
      (Machine arr w tr) = Done v m'
    ∧ (v = ECMA_VALUE_EMPTY ∨ v = ECMA_VALUE_ERROR)
    ∧ array_p m' ≡ₚ arr.
Proof.
  intros Hcb H0 Hlen Hr Hfuel. apply wp_done.
  eapply wp_mono.
  { apply wp_wlp.
    - apply heap_sort_safe; simpl; try done; lia.
    - apply heap_sort_perm; [done|lia]. }
  intros v m' [[Hv _] Hp]. done.
Qed.

(** C10.  Within the callback contract, on an array with more than [right]
    slots and [2 * right + 2] below [2 ^ 32], both functions run to their
    return: no assertion fails ([child <= right], [parent <= right] and the
    two [ecma_is_value_number] ones), no access leaves the array; and
    every array access they make is to a slot in [[0, right]], whether they
    return the error value or not. *)
Theorem accesses_in_range fuel right compare_func m :
  sort_cb_contract compare_func →
  0 ≤ right → right < Z.of_nat (length (array_p m)) →
  2 * right + 2 < 2 ^ 32 → right < Z.of_nat fuel →
  (∀ index, 0 ≤ index ≤ right →
     ∃ v m' t,
       ecma_builtin_helper_array_to_heap fuel index right compare_func m
         = Done v m'
       ∧ trace m' = trace m ++ t ∧ Forall (in_range right) t)
  ∧ (∃ v m' t,
       ecma_builtin_helper_array_heap_sort_helper fuel right compare_func m
         = Done v m'
       ∧ trace m' = trace m ++ t ∧ Forall (in_range right) t).
Proof.
  intros Hcb H0 Hlen Hr Hfuel. split.
  - intros index Hi.
    destruct (proj1 (wp_done _ _ _)
                (to_heap_safe fuel index right compare_func m Hcb Hr Hi Hlen Hfuel))
      as (v & m' & Hrun & _ & _ & t & Ht & HP).
    by exists v, m', t.
  - destruct (proj1 (wp_done _ _ _)
                (heap_sort_safe fuel right compare_func m Hcb Hr H0 Hlen Hfuel))
      as (v & m' & Hrun & _ & _ & t & Ht & HP).
    by exists v, m', t.
Qed.

(** C9.  On a single-element array ([right = 0]) the call returns
    [ECMA_VALUE_EMPTY] whatever the callback is and whatever the fuel: the
    callback is not invoked (no call in the trace, its state untouched) and
    the slot holds what it held; the code reads it and writes it back. *)
Theorem heap_sort_single_element fuel compare_func x w tr :
  ecma_builtin_helper_array_heap_sort_helper fuel 0 compare_func
    (Machine [x] w tr)
  = Done ECMA_VALUE_EMPTY (Machine [x] w (tr ++ [EvRead 0 x; EvWrite 0 x])).
Proof.
  change (tr ++ [EvRead 0 x; EvWrite 0 x])
    with (tr ++ ([EvRead 0 x] ++ [EvWrite 0 x])).
  rewrite app_assoc. by destruct fuel.
Qed.

(** ** The first failure of the callback ends the sort *)

Lemma no_failure_trans tr0 tr1 tr2 :
  no_failure tr0 tr1 → no_failure tr1 tr2 → no_failure tr0 tr2.
Proof.
  intros (t1 & -> & H1) (t2 & -> & H2). exists (t1 ++ t2).
  split; [by rewrite app_assoc|]. apply Forall_app. auto.
Qed.

Lemma failed_last_intro tr0 tr a b :
  no_failure tr0 tr → failed_last tr0 (tr ++ [EvCall a b ECMA_VALUE_ERROR]).
Proof.
  intros (t & -> & Ht). exists t, a, b, []. by rewrite <-app_assoc.
Qed.

Lemma failed_last_snoc tr0 tr e :
  failed_last tr0 tr → ¬ is_call e → failed_last tr0 (tr ++ [e]).
Proof.
  intros (t1 & a & b & t2 & -> & H1 & H2) He.
  exists t1, a, b, (t2 ++ [e]). split; [by rewrite <-!app_assoc|].
  split; [done|]. apply Forall_app. auto.
Qed.

Lemma failed_last_trans tr0 tr1 tr2 :
  no_failure tr0 tr1 → failed_last tr1 tr2 → failed_last tr0 tr2.
Proof.
  intros (t & -> & Ht) (t1 & a & b & t2 & -> & H1 & H2).
  exists (t ++ t1), a, b, t2. split; [by rewrite <-!app_assoc|].
  split; [|done]. apply Forall_app. auto.
Qed.

Ltac nf :=
  try unfold no_failure in *;
  repeat (apply trace_snoc; [|simpl; first [done | by intro]]);
  first [assumption | apply trace_start].

Ltac fail_leaf :=
  simpl; first
    [ split; [nf|done]
    | left; split; [done|nf]
    | right; split; [done|apply failed_last_intro; nf] ].

Lemma to_heap_body_failure right swap f tr0 child m :
  no_failure tr0 (trace m) →
  wlp (to_heap_body right swap f (child, ECMA_VALUE_EMPTY))
      (λ c m', match c with
               | Next l' => no_failure tr0 (trace m') ∧ l'.2 = ECMA_VALUE_EMPTY
               | Brk l' =>
                   (l'.2 = ECMA_VALUE_EMPTY ∧ no_failure tr0 (trace m'))
                   ∨ (l'.2 = ECMA_VALUE_ERROR ∧ failed_last tr0 (trace m'))
               end) m.
Proof.
  intros Hnf. destruct m as [arr w tr]. simpl in *. unfold no_failure in *.
  cbv beta delta [to_heap_body to_heap_select_child to_heap_compare_swap].
  repeat wlp_step; fail_leaf.
Qed.

Lemma to_heap_failure fuel index right f m :
  wlp (ecma_builtin_helper_array_to_heap fuel index right f)
      (failure_post (λ v, v = ECMA_VALUE_EMPTY) (λ v, v = ECMA_VALUE_ERROR) m)
      m.
Proof.
  cbv beta delta [ecma_builtin_helper_array_to_heap to_heap_loop].
  do 3 wlp_step. wlp_step.
  eapply wlp_mono.
  { apply wlp_while with
      (Inv := λ l m', no_failure (trace m) (trace m') ∧ l.2 = ECMA_VALUE_EMPTY)
      (Q := failure_post (λ l, l.2 = ECMA_VALUE_EMPTY)
              (λ l, l.2 = ECMA_VALUE_ERROR) m).
    - split; [|done]. unfold no_failure. simpl. nf.
    - intros [child r] m1 [Hnf Hr] _. simpl in Hr. subst r.
      by apply to_heap_body_failure.
    - intros [child r] m1 [Hnf Hr] _. by left. }
  intros [child r] m1 Hpost. unfold failure_post in *. simpl in *.
  destruct m1 as [arr1 w1 tr1]. repeat wlp_step.
  destruct Hpost as [[-> Hnf]|[-> Hf]]; [left|right]; (split; [done|]);
    simpl in *.
  - nf.
  - apply failed_last_snoc; [done|by intro].
Qed.

Lemma failure_post_trans {A} (ok err : A → Prop) m m1 a m2 :
  no_failure (trace m) (trace m1) → failure_post ok err m1 a m2 →
  failure_post ok err m a m2.
Proof.
  intros Hnf [[Ha H]|[Ha H]]; [left|right]; (split; [done|]).
  - by eapply no_failure_trans.
  - by eapply failed_last_trans.
Qed.

Lemma heap_sort_build_failure fuel right f m :
  wlp (heap_sort_build fuel right f)
      (failure_post (λ r, r = None) (λ r, r = Some ECMA_VALUE_ERROR) m) m.
Proof.
  unfold heap_sort_build.
  apply wlp_for_down with (Inv := λ _ m', no_failure (trace m) (trace m')).
  - nf.
  - intros i m1 Hi Hnf. wlp_step.
    eapply wlp_mono; [apply to_heap_failure|].
    intros v m2 Hpost. apply (failure_post_trans _ _ m) in Hpost; [|done].
    destruct Hpost as [[-> H]|[-> H]]; wlp_step; [done|by right].
  - intros m1 Hnf. by left.
Qed.

Lemma heap_sort_extract_failure fuel right f m :
  wlp (heap_sort_extract fuel right f)
      (failure_post (λ r, r = None) (λ r, r = Some ECMA_VALUE_ERROR) m) m.
Proof.
  unfold heap_sort_extract.
  apply wlp_for_down with (Inv := λ _ m', no_failure (trace m) (trace m')).
  - nf.
  - intros i m1 Hi Hnf. destruct m1 as [arr1 w1 tr1]. simpl in *.
    do 2 wlp_step. do 2 wlp_step. do 2 wlp_step. do 2 wlp_step. wlp_step.
    eapply wlp_mono; [apply to_heap_failure|].
    intros v1 m2 Hpost. apply (failure_post_trans _ _ m) in Hpost; [|simpl; nf].
    destruct Hpost as [[-> Hp]|[-> Hp]]; wlp_step; [done|by right].
  - intros m1 Hnf. by left.
Qed.

Lemma heap_sort_failure fuel right f m :
  wlp (ecma_builtin_helper_array_heap_sort_helper fuel right f)
      (failure_post (λ v, v = ECMA_VALUE_EMPTY) (λ v, v = ECMA_VALUE_ERROR) m)
      m.
Proof.
  unfold ecma_builtin_helper_array_heap_sort_helper. wlp_step.
  eapply wlp_mono; [apply heap_sort_build_failure|].
  intros r m1 [[-> Hp]|[-> Hp]]; wlp_step; [|by right].
  eapply wlp_mono; [apply heap_sort_extract_failure|].
  intros r m2 Hpost. apply (failure_post_trans _ _ m) in Hpost; [|done].
  destruct Hpost as [[-> Hp2]|[-> Hp2]]; wlp_step; [by left|by right].
Qed.

(** C5.  The trace of a call splits in one of two ways.  Either no
    invocation of the callback has failed, and the call returns
    [ECMA_VALUE_EMPTY]; or one invocation has failed, none before it has,
    no invocation follows it, and the call returns [ECMA_VALUE_ERROR].
    So a failure is the last invocation and is what the call returns, and
    the error value is returned only after a failed invocation. *)
Theorem heap_sort_first_failure_aborts fuel right compare_func m :
  sort_cb_contract compare_func →
  0 ≤ right → right < Z.of_nat (length (array_p m)) →
  2 * right + 2 < 2 ^ 32 → right < Z.of_nat fuel →
  ∃ v m',
    ecma_builtin_helper_array_heap_sort_helper fuel right compare_func m
      = Done v m'
    ∧ ((v = ECMA_VALUE_EMPTY
        ∧ ∃ t, trace m' = trace m ++ t
               ∧ Forall (λ e, ¬ is_failed_call e) t)
       ∨ (v = ECMA_VALUE_ERROR
          ∧ ∃ t1 a b t2,
              trace m' = trace m ++ t1 ++ EvCall a b ECMA_VALUE_ERROR :: t2
              ∧ Forall (λ e, ¬ is_failed_call e) t1
              ∧ Forall (λ e, ¬ is_call e) t2)).
Proof.
  intros Hcb H0 Hlen Hr Hfuel. apply wp_done.
  eapply wp_mono.
  { apply wp_wlp; [by apply heap_sort_safe|apply heap_sort_failure]. }
  intros v m' [_ Hpost]. exact Hpost.
Qed.

(** ** What the callback returns is released *)

Lemma owner_inv_app tr0 o tr t' o' :
  owner_inv tr0 o tr → fold_left owner_step t' o = o' →
  owner_inv tr0 o' (tr ++ t').
Proof.
  intros (t & -> & Ht) Hstep. exists (t ++ t'). split; [by rewrite app_assoc|].
  unfold owner_after in *. by rewrite fold_left_app, Ht.
Qed.

Ltac own :=
  simpl; rewrite <-?app_assoc; simpl;
  eapply owner_inv_app;
  [eassumption | simpl; rewrite ?decide_True by done; done].

Ltac own_leaf :=
  simpl; first
    [ split; [own|done]
    | left; split; [done|own]
    | right; split; [done|own] ].

Lemma to_heap_body_owner right swap f tr0 child m :
  2 * right + 2 < 2 ^ 32 → 1 ≤ child →
  owner_inv tr0 Idle (trace m) →
  wlp (to_heap_body right swap f (child, ECMA_VALUE_EMPTY))
      (λ c m', 1 ≤ (match c with Next l' | Brk l' => l'.1 end) ∧
               match c with
               | Next l' => owner_inv tr0 Idle (trace m') ∧ l'.2 = ECMA_VALUE_EMPTY
               | Brk l' =>
                   (l'.2 = ECMA_VALUE_EMPTY ∧ owner_inv tr0 Idle (trace m'))
                   ∨ (l'.2 = ECMA_VALUE_ERROR ∧ owner_inv tr0 Failed (trace m'))
               end) m.
Proof.
  intros Hr Hc Hnf. destruct m as [arr w tr]. simpl in *.
  cbv beta delta [to_heap_body to_heap_select_child to_heap_compare_swap].
  repeat wlp_step; (split; [simpl; lia|own_leaf]).
Qed.

Lemma to_heap_owner fuel index right f m :
  2 * right + 2 < 2 ^ 32 → 0 ≤ index ≤ right →
  wlp (ecma_builtin_helper_array_to_heap fuel index right f)
      (λ v m', ∃ t, trace m' = trace m ++ t
                    ∧ ((v = ECMA_VALUE_EMPTY ∧ owner_after t = Idle)
                       ∨ (v = ECMA_VALUE_ERROR ∧ owner_after t = Failed))) m.
Proof.
  intros Hr Hi.
  cbv beta delta [ecma_builtin_helper_array_to_heap to_heap_loop].
  do 3 wlp_step. wlp_step.
  eapply wlp_mono.
  { apply wlp_while with
      (Inv := λ l m', 1 ≤ l.1 ∧ owner_inv (trace m) Idle (trace m')
                      ∧ l.2 = ECMA_VALUE_EMPTY)
      (Q := λ l m',
         (l.2 = ECMA_VALUE_EMPTY ∧ owner_inv (trace m) Idle (trace m'))
         ∨ (l.2 = ECMA_VALUE_ERROR ∧ owner_inv (trace m) Failed (trace m'))).
    - split; [simpl; lia|]. split; [|done]. simpl.
      apply (owner_inv_app _ Idle); [|done].
      exists []. by rewrite app_nil_r.
    - intros [child r] m1 (Hc & Hnf & Hret) _. simpl in Hret, Hc. subst r.
      eapply wlp_mono; [by apply to_heap_body_owner|].
      intros [l'|l'] m2 [Hl' Hpost]; [by split|done].
    - intros [child r] m1 (Hc & Hnf & Hret) _. by left. }
  intros [child r] m1 Hpost. simpl in *. destruct m1 as [arr1 w1 tr1].
  repeat wlp_step. simpl in *.
  destruct Hpost as [[-> Ho]|[-> Ho]];
    (eapply (owner_inv_app _ _ _ [EvWrite _ _]) in Ho; [|done]);
    destruct Ho as (t & Ht & Ho); exists t; (split; [done|]); eauto.
Qed.

(** C7.  Read along the trace of a call to
    [ecma_builtin_helper_array_to_heap], a value the callback returned
    without failing is released once, before the next invocation and before
    the return: at once, or, when the loop goes on, after the one move of the
    child to its parent that the comparison decided.  Nothing is released
    that is not held.  At the return nothing is held, after
    [ECMA_VALUE_EMPTY] as after [ECMA_VALUE_ERROR]; in the second case the
    failed invocation is the last event that involves the callback. *)
Theorem to_heap_releases_outcomes fuel index right compare_func m :
  sort_cb_contract compare_func →
  0 ≤ index ≤ right → right < Z.of_nat (length (array_p m)) →
  2 * right + 2 < 2 ^ 32 → right < Z.of_nat fuel →
  ∃ v m' t,
    ecma_builtin_helper_array_to_heap fuel index right compare_func m
      = Done v m'
    ∧ trace m' = trace m ++ t
    ∧ ((v = ECMA_VALUE_EMPTY ∧ owner_after t = Idle)
       ∨ (v = ECMA_VALUE_ERROR ∧ owner_after t = Failed)).
Proof.
  intros Hcb Hi Hlen Hr Hfuel.
  destruct (proj1 (wp_done _ _ _)
              (wp_wlp _ _ _ _
                 (to_heap_safe fuel index right compare_func m Hcb Hr Hi Hlen Hfuel)
                 (to_heap_owner fuel index right compare_func m Hr Hi)))
    as (v & m' & Hrun & _ & t & Ht & Ho).
  by exists v, m', t.
Qed.

(** ** A failure at the first invocation *)

Lemma calls_inv_app tr0 cs tr t' :
  calls_inv tr0 cs tr → calls_inv tr0 (cs ++ call_results t') (tr ++ t').
Proof.
  intros (t & -> & <-). exists (t ++ t'). split; [by rewrite app_assoc|].
  unfold call_results. by rewrite omap_app.
Qed.

Lemma calls_inv_trans tr0 cs1 tr1 cs2 tr2 :
  calls_inv tr0 cs1 tr1 → calls_inv tr1 cs2 tr2 →
  calls_inv tr0 (cs1 ++ cs2) tr2.
Proof. intros H1 (t2 & -> & <-). by apply calls_inv_app. Qed.

Lemma first_ok_app tr0 tr t' : first_ok tr0 tr → first_ok tr0 (tr ++ t').
Proof.
  intros (r & rest & Hc & Hr). exists r, (rest ++ call_results t').
  split; [|done]. by apply (calls_inv_app _ (r :: rest)).
Qed.

Lemma first_ok_ext tr0 tr tr' :
  first_ok tr0 tr → (∃ t, tr' = tr ++ t) → first_ok tr0 tr'.
Proof. intros H (t & ->). by apply first_ok_app. Qed.

Lemma first_ok_intro tr0 tr t' r rest :
  calls_inv tr0 [] tr → call_results t' = r :: rest → r ≠ ECMA_VALUE_ERROR →
  first_ok tr0 (tr ++ t').
Proof.
  intros Hc Ht' Hr. exists r, rest. split; [|done].
  rewrite <-Ht'. by apply (calls_inv_app _ []).
Qed.

Lemma failure_post_ext {A} (ok err : A → Prop) m a m' :
  failure_post ok err m a m' → ∃ t, trace m' = trace m ++ t.
Proof.
  intros [[_ (t & -> & _)]|[_ (t1 & x & y & t2 & -> & _)]]; eauto.
Qed.

Ltac first_ok_leaf :=
  simpl; rewrite <-?app_assoc; simpl;
  first
    [ by apply first_ok_app
    | eapply first_ok_intro; [eassumption | simpl; reflexivity | done] ].

Ltac first_leaf :=
  first
    [ first_ok_leaf
    | left; first_ok_leaf
    | right; simpl; rewrite <-?app_assoc; simpl;
      split; [by eapply (calls_inv_app _ []); eassumption|done] ].

(** The body run before any invocation: either the first invocation
    succeeds, or it fails and the body breaks with [child] as it was. *)
Lemma to_heap_body_first right swap f tr0 child m :
  calls_inv tr0 [] (trace m) →
  wlp (to_heap_body right swap f (child, ECMA_VALUE_EMPTY))
      (λ c m', match c with
               | Next l' => first_ok tr0 (trace m')
               | Brk l' =>
                   first_ok tr0 (trace m')
                   ∨ (calls_inv tr0 [ECMA_VALUE_ERROR] (trace m')
                      ∧ array_p m' = array_p m
                        ∧ l' = (child, ECMA_VALUE_ERROR))
               end) m.
Proof.
  intros Hnf. destruct m as [arr w tr]. simpl in *.
  cbv beta delta [to_heap_body to_heap_select_child to_heap_compare_swap].
  repeat wlp_step; first_leaf.
Qed.

Lemma calls_inv_snoc_quiet tr0 cs tr e :
  calls_inv tr0 cs tr → call_result e = None → calls_inv tr0 cs (tr ++ [e]).
Proof.
  intros Hc He. apply (calls_inv_app _ _ _ [e]) in Hc.
  unfold call_results in Hc. simpl in Hc. rewrite He in Hc.
  by rewrite app_nil_r in Hc.
Qed.

Lemma to_heap_first fuel index right f m :
  2 * right + 2 < 2 ^ 32 → 0 ≤ index ≤ right →
  wlp (ecma_builtin_helper_array_to_heap fuel index right f)
      (first_post right index m) m.
Proof.
  intros Hr Hi.
  cbv beta delta [ecma_builtin_helper_array_to_heap to_heap_loop].
  do 3 wlp_step. rename v into swap. wlp_step.
  eapply wlp_mono.
  { apply wlp_while with
      (Inv := λ l m',
         l.2 = ECMA_VALUE_EMPTY
         ∧ (first_ok (trace m) (trace m')
            ∨ (calls_inv (trace m) [] (trace m') ∧ array_p m' = array_p m
               ∧ l.1 = index * 2 + 1)))
      (Q := λ l m',
         first_ok (trace m) (trace m')
         ∨ (calls_inv (trace m) [] (trace m') ∧ array_p m' = array_p m
            ∧ l = (index * 2 + 1, ECMA_VALUE_EMPTY) ∧ right < 2 * index + 1)
         ∨ (calls_inv (trace m) [ECMA_VALUE_ERROR] (trace m')
            ∧ array_p m' = array_p m
            ∧ l = (index * 2 + 1, ECMA_VALUE_ERROR))).
    - split; [done|]. right. simpl. split; [|done].
      apply calls_inv_snoc_quiet; [|done]. exists []. by rewrite app_nil_r.
    - intros [child r] m1 [Hret Hinv] _. simpl in Hret. subst r.
      destruct Hinv as [Hok|(Hc & Harr & Hch)].
      + eapply wlp_mono.
        { apply (to_heap_body_failure _ _ _ (trace m1)). apply trace_start. }
        intros [l'|l'] m2 Hpost; simpl.
        * destruct Hpost as [(t & -> & _) ->]. split; [done|]. left.
          by apply first_ok_app.
        * left. eapply first_ok_ext; [done|].
          destruct Hpost as [[_ (t & -> & _)]|[_ (t1 & x & y & t2 & -> & _)]];
            eauto.
      + simpl in Hch. subst child. eapply wlp_mono.
        { apply wlp_conj.
          - by apply (to_heap_body_first _ _ _ (trace m)).
          - apply (to_heap_body_failure _ _ _ (trace m1)). apply trace_start. }
        intros [l'|l'] m2 [Hf Hpost]; simpl.
        * destruct Hpost as [_ ->]. auto.
        * destruct Hf as [Hf|(Hc' & Harr' & ->)]; [by left|].
          right. right. split; [done|]. split; [congruence|done].
    - intros [child r] m1 [Hret Hinv] Hcond. simpl in *. subst r. bool_hyps.
      destruct Hinv as [Hok|(Hc & Harr & ->)]; [by left|].
      right. left. repeat split; try done. lia. }
  intros [child r] m1 Hpost. simpl in *. destruct m1 as [arr1 w1 tr1].
  simpl in *. unfold first_post.
  destruct Hpost as [Hok|[(Hc & -> & [= -> ->] & Hlt)|(Hc & -> & [= -> ->])]].
  - repeat wlp_step. left. simpl. by apply first_ok_app.
  - repeat wlp_step. right. left. simpl.
    replace ((index * 2 + 1 - 1) `div` 2) with index by lia.
    rewrite list_insert_id by done. repeat split; try done.
    by apply calls_inv_snoc_quiet.
  - repeat wlp_step. right. right. simpl.
    replace ((index * 2 + 1 - 1) `div` 2) with index by lia.
    rewrite list_insert_id by done. repeat split; try done.
    by apply calls_inv_snoc_quiet.
Qed.

Lemma first_ok_trans tr0 tr1 tr2 :
  calls_inv tr0 [] tr1 → first_ok tr1 tr2 → first_ok tr0 tr2.
Proof.
  intros Hc (r & rest & Hc2 & Hr). exists r, rest. split; [|done].
  by apply (calls_inv_trans _ [] tr1).
Qed.

Lemma to_heap_first_ok fuel index right f tr0 m :
  first_ok tr0 (trace m) →
  wlp (ecma_builtin_helper_array_to_heap fuel index right f)
      (λ _ m', first_ok tr0 (trace m')) m.
Proof.
  intros Hok. eapply wlp_mono; [apply to_heap_failure|].
  intros v m' Hpost. eapply first_ok_ext; [done|].
  by eapply failure_post_ext.
Qed.

Lemma heap_sort_build_first fuel right f m :
  2 * right + 2 < 2 ^ 32 → 0 ≤ right →
  wlp (heap_sort_build fuel right f)
      (λ r m',
         first_ok (trace m) (trace m')
         ∨ match r with
           | None => calls_inv (trace m) [] (trace m')
                     ∧ array_p m' = array_p m ∧ right < 1
           | Some v => calls_inv (trace m) [ECMA_VALUE_ERROR] (trace m')
                       ∧ array_p m' = array_p m ∧ v = ECMA_VALUE_ERROR
           end) m.
Proof.
  intros Hr H0. unfold heap_sort_build. rewrite uint32_small by lia.
  apply wlp_for_down with
    (Inv := λ i m', first_ok (trace m) (trace m')
                    ∨ (calls_inv (trace m) [] (trace m')
                       ∧ array_p m' = array_p m ∧ right < 2 * i + 1)).
  - right. split; [|split; [done|lia]]. exists []. by rewrite app_nil_r.
  - intros i m1 Hi Hinv. rewrite uint32_small by lia. wlp_step.
    destruct Hinv as [Hok|(Hc & Harr & Hlt)].
    + eapply wlp_mono; [by apply to_heap_first_ok|].
      intros v m2 Hok2. simpl in Hok2. repeat wlp_step; by left.
    + eapply wlp_mono; [apply to_heap_first; [done|lia]|].
      intros v m2 [Hok|[(Hc2 & -> & Harr2 & Hlt2)|(Hc2 & -> & Harr2)]].
      * assert (first_ok (trace m) (trace m2)) by (by eapply first_ok_trans).
        repeat wlp_step; by left.
      * wlp_step. right. split; [|split; [congruence|lia]].
        by apply (calls_inv_trans _ [] (trace m1) []).
      * wlp_step. right. split; [|split; [congruence|done]].
        by apply (calls_inv_trans _ [] (trace m1) [ECMA_VALUE_ERROR]).
  - intros m1 [Hok|(Hc & Harr & Hlt)]; [by left|right].
    split; [done|]. split; [done|lia].
Qed.

Lemma heap_sort_extract_first_ok fuel right f tr0 m :
  first_ok tr0 (trace m) →
  wlp (heap_sort_extract fuel right f) (λ _ m', first_ok tr0 (trace m')) m.
Proof.
  intros Hok. eapply wlp_mono; [apply heap_sort_extract_failure|].
  intros v m' Hpost. eapply first_ok_ext; [done|].
  by eapply failure_post_ext.
Qed.

Lemma heap_sort_first fuel right f m :
  2 * right + 2 < 2 ^ 32 → 0 ≤ right →
  wlp (ecma_builtin_helper_array_heap_sort_helper fuel right f)
      (λ v m',
         first_ok (trace m) (trace m')
         ∨ (calls_inv (trace m) [] (trace m') ∧ array_p m' = array_p m)
         ∨ (calls_inv (trace m) [ECMA_VALUE_ERROR] (trace m')
            ∧ array_p m' = array_p m ∧ v = ECMA_VALUE_ERROR)) m.
Proof.
  intros Hr H0. unfold ecma_builtin_helper_array_heap_sort_helper. wlp_step.
  eapply wlp_mono; [by apply heap_sort_build_first|].
  intros [v|] m1 [Hok|Hpost]; simpl.
  - wlp_step. by left.
  - wlp_step. right. by right.
  - wlp_step. eapply wlp_mono; [by apply heap_sort_extract_first_ok|].
    intros r m2 Hok2. simpl in Hok2. destruct r; wlp_step; by left.
  - destruct Hpost as (Hc & Harr & Hlt). assert (right = 0) as -> by lia.
    unfold heap_sort_extract. simpl. repeat wlp_step. right. by left.
Qed.

(** C6.  If the first invocation of the callback during the call fails,
    the call returns [ECMA_VALUE_ERROR], that invocation is the only one,
    and the array is, slot by slot, the array that was passed in. *)
Theorem heap_sort_first_call_fails fuel right compare_func arr w tr :
  sort_cb_contract compare_func →
  0 ≤ right → Z.of_nat (length arr) = right + 1 →
  2 * right + 2 < 2 ^ 32 → right < Z.of_nat fuel →
  ∃ v m' t,
    ecma_builtin_helper_array_heap_sort_helper fuel right compare_func
      (Machine arr w tr) = Done v m'
    ∧ trace m' = tr ++ t
    ∧ (head (call_results t) = Some ECMA_VALUE_ERROR →
       v = ECMA_VALUE_ERROR ∧ array_p m' = arr
       ∧ call_results t = [ECMA_VALUE_ERROR]).
Proof.
  intros Hcb H0 Hlen Hr Hfuel.
  destruct (proj1 (wp_done _ _ _)
              (wp_wlp _ _ _ _
                 (heap_sort_safe fuel right compare_func (Machine arr w tr)
                    Hcb Hr H0 ltac:(simpl; lia) Hfuel)
                 (heap_sort_first fuel right compare_func (Machine arr w tr)
                    Hr H0)))
    as (v & m' & Hrun & _ & Hpost).
  simpl in Hpost. exists v, m'.
  destruct Hpost as [(r & rest & (t & Ht & Hcs) & Hne)
                    |[[(t & Ht & Hcs) Harr]|[(t & Ht & Hcs) [Harr ->]]]];
    exists t; (split; [done|]); (split; [done|]); rewrite Hcs; simpl.
  - intros [= ->]. done.
  - done.
  - done.
Qed.

(** ** The value held aside is written back *)

Lemma cm_inv_read tr0 tr i v : cm_inv tr0 tr → cm_inv tr0 (tr ++ [EvRead i v]).
Proof.
  intros (t & -> & Ht). exists (t ++ [EvRead i v]).
  split; [by rewrite app_assoc|by constructor].
Qed.

Lemma cm_inv_call tr0 tr a b r :
  cm_inv tr0 tr → cm_inv tr0 (tr ++ [EvCall a b r]).
Proof.
  intros (t & -> & Ht). exists (t ++ [EvCall a b r]).
  split; [by rewrite app_assoc|by constructor].
Qed.

Lemma cm_inv_free tr0 tr v : cm_inv tr0 tr → cm_inv tr0 (tr ++ [EvFree v]).
Proof.
  intros (t & -> & Ht). exists (t ++ [EvFree v]).
  split; [by rewrite app_assoc|by constructor].
Qed.

Lemma cm_inv_move tr0 tr c p v :
  cm_inv tr0 tr → p = (c - 1) `div` 2 →
  cm_inv tr0 ((tr ++ [EvRead c v]) ++ [EvWrite p v]).
Proof.
  intros (t & -> & Ht) ->. exists (t ++ [EvRead c v; EvWrite ((c - 1) `div` 2) v]).
  split; [by rewrite <-!app_assoc|by constructor].
Qed.

Ltac cm :=
  simpl;
  repeat first
    [ apply cm_inv_free | apply cm_inv_call
    | apply cm_inv_move; [|lia] | apply cm_inv_read ];
  assumption.

Lemma to_heap_body_moves right swap f tr0 child r m :
  2 * right + 2 < 2 ^ 32 → 1 ≤ child →
  cm_inv tr0 (trace m) →
  wlp (to_heap_body right swap f (child, r))
      (λ c m', match c with
               | Next l' => 1 ≤ l'.1 ≤ 2 * right + 1 ∧ cm_inv tr0 (trace m')
               | Brk l' => 1 ≤ l'.1 ≤ right ∧ cm_inv tr0 (trace m')
               end) m.
Proof.
  intros Hr Hc Hcm. destruct m as [arr w tr]. simpl in *.
  cbv beta delta [to_heap_body to_heap_select_child to_heap_compare_swap].
  repeat wlp_step; (split; [lia|cm]).
Qed.

Lemma to_heap_loop_moves fuel right swap f child r m :
  2 * right + 2 < 2 ^ 32 → 1 ≤ child ≤ 2 * right + 1 →
  wlp (to_heap_loop fuel right swap f (child, r))
      (λ l m', 1 ≤ l.1 ≤ 2 * right + 1 ∧ cm_inv (trace m) (trace m')) m.
Proof.
  intros Hr Hc. unfold to_heap_loop.
  apply wlp_while with
    (Inv := λ l m', 1 ≤ l.1 ≤ 2 * right + 1 ∧ cm_inv (trace m) (trace m')).
  - split; [done|]. exists []. split; [by rewrite app_nil_r|constructor].
  - intros [child' r'] m1 [Hc' Hcm] _. simpl in *.
    eapply wlp_mono; [apply to_heap_body_moves; [done|lia|done]|].
    intros [l'|l'] m2 [H1 H2]; (split; [lia|done]).
  - by intros l m1 H _.
Qed.

Lemma bind_done_inv {A B} (c : M A) (k : A → M B) m b m' :
  (c ≫= k) m = Done b m' → ∃ a m1, c m = Done a m1 ∧ k a m1 = Done b m'.
Proof.
  unfold mbind, M_bind, bind. destruct (c m) as [a m1| |]; [eauto|done|done].
Qed.

(** C3.  A call with [index <= right] returns on every path, and it is
    the loop followed by one write: of [swap], the value read at [index],
    into the parent [(child - 1) / 2] of the [child] the loop ended with.
    The loop itself only reads, compares, releases and moves children up,
    so that write is the one that puts [swap] back; it is made whether
    the loop ended normally, by [break], or on a failure of the callback
    ([ret_value] is then [ECMA_VALUE_ERROR]). *)
Theorem to_heap_writes_swap_back fuel index right compare_func m :
  sort_cb_contract compare_func →
  0 ≤ index ≤ right → right < Z.of_nat (length (array_p m)) →
  2 * right + 2 < 2 ^ 32 → right < Z.of_nat fuel →
  ∃ swap child ret_value m1 m' t,
    array_p m !! Z.to_nat index = Some swap
    ∧ to_heap_loop fuel right swap compare_func
        (uint32 (index * 2 + 1), ECMA_VALUE_EMPTY) (log (EvRead index swap) m)
      = Done (child, ret_value) m1
    ∧ trace m1 = trace m ++ [EvRead index swap] ++ t ∧ child_moves t
    ∧ ecma_builtin_helper_array_to_heap fuel index right compare_func m
      = Done ret_value m'
    ∧ (ret_value = ECMA_VALUE_EMPTY ∨ ret_value = ECMA_VALUE_ERROR)
    ∧ 0 ≤ (child - 1) `div` 2 ≤ right
    ∧ m' = Machine (<[Z.to_nat ((child - 1) `div` 2) := swap]> (array_p m1))
             (cb_state m1)
             (trace m1 ++ [EvWrite ((child - 1) `div` 2) swap])
    ∧ array_p m' !! Z.to_nat ((child - 1) `div` 2) = Some swap.
Proof.
  intros Hcb Hi Hlen Hr Hfuel.
  destruct (proj1 (wp_done _ _ _)
              (to_heap_safe fuel index right compare_func m Hcb Hr Hi Hlen Hfuel))
    as (v & m' & Hrun & Hv & _).
  pose proof Hrun as Hrun'.
  cbv beta delta [ecma_builtin_helper_array_to_heap] in Hrun'.
  apply bind_done_inv in Hrun' as (swap & m0 & Hread & Hrun').
  unfold read_array in Hread. destruct (decide (index < 0)); [done|].
  destruct (array_p m !! Z.to_nat index) as [swap'|] eqn:Hswap; [|done].
  injection Hread as -> <-.
  cbv zeta in Hrun'.
  apply bind_done_inv in Hrun' as ([child r] & m1 & Hloop & Htail).
  pose proof (wlp_done _ _ _ _ _
                (to_heap_loop_moves fuel right swap compare_func
                   (uint32 (index * 2 + 1)) ECMA_VALUE_EMPTY
                   (log (EvRead index swap) m) Hr
                   ltac:(rewrite uint32_small by lia; lia))
                Hloop) as [Hc (t & Ht & Hcm)].
  simpl in Hc, Ht.
  rewrite (uint32_small (child - 1)) in Htail by lia.
  apply bind_done_inv in Htail as ([] & m2 & Hassert & Htail).
  unfold JERRY_ASSERT in Hassert.
  destruct (_ <=? _) eqn:Hle in Hassert; [|done]. injection Hassert as <-.
  apply bind_done_inv in Htail as ([] & m3 & Hwrite & Htail).
  unfold write_array in Hwrite. destruct (decide _) as [Hin|] in Hwrite; [|done].
  injection Hwrite as <-. injection Htail as <- <-. bool_hyps.
  eexists swap, child, r, m1, _, t. repeat split; try done.
  - by rewrite Ht, <-app_assoc.
  - lia.
  - simpl. apply list_lookup_insert_eq. lia.
Qed.

(** ** Which child is compared with [swap] *)

(** C4, as the code has it.  In an iteration with a right sibling
    ([child < right]) in which the callback returns a number [n] for
    [(array_p[child], array_p[child + 1])], the number is released and
    [child] becomes [child + 1] when [n < 0]; it stays the left child when
    [n] is zero or positive.  The comparison with [swap] that follows is
    made for that [child]. *)
Theorem select_child_advances_when_negative right swap compare_func child
    ret_value m a b n w' :
  0 ≤ child → child < right → right < 2 ^ 32 →
  array_p m !! Z.to_nat child = Some a →
  array_p m !! Z.to_nat (child + 1) = Some b →
  sort_cb a b compare_func (cb_state m) = (ecma_make_number_value n, w') →
  let child' := if n <? 0 then child + 1 else child in
  let m' := Machine (array_p m) w'
              (trace m ++ [EvRead child a; EvRead (child + 1) b;
                           EvCall a b (ecma_make_number_value n);
                           EvFree (ecma_make_number_value n)]) in
  to_heap_select_child right compare_func (child, ret_value) m
    = Done (Next (child', ret_value)) m'
  ∧ to_heap_body right swap compare_func (child, ret_value) m
    = to_heap_compare_swap right swap compare_func (child', ret_value) m'.
Proof.
  intros H0 Hlt Hr Ha Hb Hcb child' m'.
  assert (to_heap_select_child right compare_func (child, ret_value) m
          = Done (Next (child', ret_value)) m') as Hsel.
  { unfold to_heap_select_child, mbind, M_bind, bind, read_array.
    destruct (Z.ltb_spec child right); [|lia].
    destruct (decide (child < 0)); [lia|]. rewrite Ha. simpl.
    rewrite uint32_small by lia.
    destruct (decide (child + 1 < 0)); [lia|]. rewrite Hb.
    unfold call_sort_cb. simpl. rewrite Hcb. simpl.
    unfold ECMA_NUMBER_ZERO, ecma_free_value, ret, log, m', child'. simpl.
    by rewrite <-!app_assoc. }
  split; [done|].
  unfold to_heap_body, mbind, M_bind, bind. by rewrite Hsel.
Qed.

(** ** Sorting, for a callback that is a total order *)

Lemma slot_lookup a i x : a !! Z.to_nat i = Some x → slot a i = x.
Proof. unfold slot. by intros ->. Qed.

Lemma slot_insert_eq a i v :
  0 ≤ i < Z.of_nat (length a) → slot (<[Z.to_nat i := v]> a) i = v.
Proof. intros Hi. unfold slot. rewrite list_lookup_insert_eq by lia. done. Qed.

Lemma slot_insert_ne a i j v :
  0 ≤ i → 0 ≤ j → i ≠ j → slot (<[Z.to_nat i := v]> a) j = slot a j.
Proof. intros Hi Hj Hne. unfold slot. rewrite list_lookup_insert_ne by lia. done. Qed.

Section TotalOrder.

(** The number the callback returns for two values. *)
Variable cmp : ecma_value_t → ecma_value_t → Z.
Variable compare_func : ecma_value_t.

Hypothesis Hord : sign_total_order cmp.

Lemma cmp_refl a : cmp a a ≤ 0.
Proof. destruct Hord as [Hs _]. specialize (Hs a a). lia. Qed.

Lemma cmp_flip a b : 0 ≤ cmp a b → cmp b a ≤ 0.
Proof. destruct Hord as [Hs _]. specialize (Hs a b). lia. Qed.

Lemma cmp_flip_ge a b : cmp a b ≤ 0 → 0 ≤ cmp b a.
Proof. destruct Hord as [Hs _]. specialize (Hs a b). lia. Qed.

Lemma cmp_trans a b c : cmp a b ≤ 0 → cmp b c ≤ 0 → cmp a c ≤ 0.
Proof. destruct Hord as [_ Ht]. apply Ht. Qed.

Lemma sift_inv_start index right swap a :
  heap_on cmp (index + 1) right a → sift_inv cmp index right swap index a.
Proof.
  intros Hheap. split; [lia|]. split; [|lia].
  intros c Hc Hne. apply Hheap. lia.
Qed.

Lemma sift_inv_move index right swap p a c0 :
  sift_inv cmp index right swap p a →
  0 ≤ index → 0 ≤ p < Z.of_nat (length a) →
  (c0 = 2 * p + 1 ∨ c0 = 2 * p + 2) → c0 ≤ right →
  cmp (slot a (2 * p + 1)) (slot a c0) ≤ 0 →
  (2 * p + 2 ≤ right → cmp (slot a (2 * p + 2)) (slot a c0) ≤ 0) →
  0 < cmp (slot a c0) swap →
  sift_inv cmp index right swap c0 (<[Z.to_nat p := slot a c0]> a).
Proof.
  intros (Hp & H1 & H2) H0 Hlen Hc0 Hr Hl Hrt Hgt.
  split; [lia|]. split.
  - intros c Hc _.
    destruct (decide (c = p)) as [->|Hcp].
    + (* the child is the slot just written *)
      rewrite slot_insert_eq by lia.
      rewrite slot_insert_ne by lia.
      pose proof (H1 c0 ltac:(lia) ltac:(lia)) as Hc0p.
      replace ((c0 - 1) `div` 2) with p in Hc0p by lia.
      eapply cmp_trans; [exact Hc0p|]. apply H1; lia.
    + rewrite (slot_insert_ne _ p c) by lia.
      destruct (decide ((c - 1) `div` 2 = p)) as [Hq|Hq].
      * rewrite Hq, slot_insert_eq by lia.
        assert (c = 2 * p + 1 ∨ c = 2 * p + 2) as [->| ->] by lia; auto.
        apply Hrt. lia.
      * rewrite slot_insert_ne by lia. apply H1; lia.
  - intros _. replace ((c0 - 1) `div` 2) with p by lia.
    rewrite slot_insert_eq by lia. apply cmp_flip. lia.
Qed.

Lemma sift_inv_fill index right swap p a :
  sift_inv cmp index right swap p a → children_le cmp right swap p a →
  0 ≤ index → 0 ≤ p < Z.of_nat (length a) →
  heap_on cmp index right (<[Z.to_nat p := swap]> a).
Proof.
  intros (Hp & H1 & H2) [Hl Hrt] H0 Hlen c Hc.
  destruct (decide (c = p)) as [->|Hcp].
  - rewrite slot_insert_eq by lia. rewrite slot_insert_ne by lia.
    apply H2. lia.
  - rewrite (slot_insert_ne _ p c) by lia.
    destruct (decide ((c - 1) `div` 2 = p)) as [Hq|Hq].
    + rewrite Hq, slot_insert_eq by lia.
      assert (c = 2 * p + 1 ∨ c = 2 * p + 2) as [->| ->] by lia.
      * apply Hl. lia.
      * apply Hrt. lia.
    + rewrite slot_insert_ne by lia. apply H1; lia.
Qed.

Hypothesis Hcmp : returns_cmp cmp compare_func.

Ltac wlp_call_cmp :=
  lazymatch goal with
  | |- wlp (call_sort_cb ?a ?b _) _ ?m =>
      let r := fresh "r" in
      let w := fresh "w" in
      let Hcb := fresh "Hcb" in
      let E := fresh "E" in
      apply wlp_call; intros r w Hcb;
      pose proof (Hcmp a b (cb_state m)) as E; rewrite Hcb in E;
      simpl in E; subst r; norm
  end.

Ltac heap_step := first [wlp_call_cmp | wlp_step].

Ltac slots :=
  repeat match goal with
  | H : ?a !! Z.to_nat ?i = Some ?v |- _ =>
      let Hl := fresh "Hl" in
      pose proof (lookup_lt_Some _ _ _ H) as Hl;
      apply slot_lookup in H; subst v
  end.

Ltac ord :=
  first
    [ lia | assumption | apply cmp_refl | apply cmp_flip; lia
    | eapply cmp_trans; [|eassumption]; first [lia | apply cmp_flip; lia] ].

Lemma to_heap_body_heap index right swap child m :
  2 * right + 2 < 2 ^ 32 → 0 ≤ index →
  1 ≤ child → child `mod` 2 = 1 →
  sift_inv cmp index right swap ((child - 1) `div` 2) (array_p m) →
  wlp (to_heap_body right swap compare_func (child, ECMA_VALUE_EMPTY))
      (λ c m', match c with
               | Next l' =>
                   l'.2 = ECMA_VALUE_EMPTY ∧ 1 ≤ l'.1 ≤ 2 * right + 1
                   ∧ l'.1 `mod` 2 = 1
                   ∧ sift_inv cmp index right swap ((l'.1 - 1) `div` 2)
                       (array_p m')
               | Brk l' =>
                   l'.2 = ECMA_VALUE_EMPTY ∧ 1 ≤ l'.1 ≤ 2 * right + 1
                   ∧ sift_inv cmp index right swap ((l'.1 - 1) `div` 2)
                       (array_p m')
                   ∧ children_le cmp right swap ((l'.1 - 1) `div` 2)
                       (array_p m')
               end) m.
Proof.
  intros Hr H0 Hc Hodd Hinv. destruct m as [arr w tr]. simpl in *.
  cbv beta delta [to_heap_body to_heap_select_child to_heap_compare_swap].
  repeat heap_step; slots; (split; [done|]).
  all: lazymatch goal with
       | |- _ ∧ sift_inv cmp _ _ _ ?q _ ∧ children_le cmp _ _ _ _ =>
           split; [lia|];
           replace q with ((child - 1) `div` 2) by lia;
           split; [done|];
           unfold children_le;
           replace (2 * ((child - 1) `div` 2) + 1) with child by lia;
           replace (2 * ((child - 1) `div` 2) + 2) with (child + 1) by lia;
           split; intros ?; ord
       | |- _ ∧ _ ∧ sift_inv cmp _ _ _ ?q (<[Z.to_nat ?q' := slot _ ?c0]> _) =>
           split; [lia|]; split; [lia|];
           replace q with c0 by lia;
           replace q' with ((child - 1) `div` 2) by lia;
           apply sift_inv_move; try done; try lia;
           replace (2 * ((child - 1) `div` 2) + 1) with child by lia;
           replace (2 * ((child - 1) `div` 2) + 2) with (child + 1) by lia;
           try (lazymatch goal with |- _ → _ => intros ? end); ord
       end.
Qed.

Lemma to_heap_heap fuel index right m :
  2 * right + 2 < 2 ^ 32 → 0 ≤ index ≤ right →
  heap_on cmp (index + 1) right (array_p m) →
  wlp (ecma_builtin_helper_array_to_heap fuel index right compare_func)
      (λ v m', v = ECMA_VALUE_EMPTY ∧ heap_on cmp index right (array_p m')) m.
Proof.
  intros Hr Hi Hheap.
  cbv beta delta [ecma_builtin_helper_array_to_heap to_heap_loop].
  do 3 wlp_step. rename v into swap. wlp_step.
  eapply wlp_mono.
  { apply wlp_while with
      (Inv := λ l m',
         l.2 = ECMA_VALUE_EMPTY ∧ 1 ≤ l.1 ≤ 2 * right + 1
         ∧ l.1 `mod` 2 = 1
         ∧ sift_inv cmp index right swap ((l.1 - 1) `div` 2) (array_p m'))
      (Q := λ l m',
         l.2 = ECMA_VALUE_EMPTY ∧ 1 ≤ l.1 ≤ 2 * right + 1
         ∧ sift_inv cmp index right swap ((l.1 - 1) `div` 2) (array_p m')
         ∧ children_le cmp right swap ((l.1 - 1) `div` 2) (array_p m')).
    - simpl. split; [done|]. split; [lia|]. split; [lia|].
      replace ((index * 2 + 1 - 1) `div` 2) with index by lia.
      by apply sift_inv_start.
    - intros [child r] m1 (Hret & Hc & Hodd & Hinv) _. simpl in *. subst r.
      apply to_heap_body_heap; try done; lia.
    - intros [child r] m1 (Hret & Hc & Hodd & Hinv) Hcond. simpl in *.
      bool_hyps. split; [done|]. split; [done|]. split; [done|].
      split; intros ?; lia. }
  intros [child r] m1 (Hret & Hc & Hinv & Hch). simpl in *. subst r.
  repeat wlp_step. split; [done|]. apply sift_inv_fill; try done; lia.
Qed.

(** In a heap the root is at least every element. *)
Lemma heap_root_max right a i :
  heap_on cmp 0 right a → 0 ≤ i ≤ right → cmp (slot a i) (slot a 0) ≤ 0.
Proof.
  intros Hheap. induction (Z.lt_wf 0 i) as [i _ IH]. intros Hi.
  destruct (decide (i = 0)) as [->|Hne]; [apply cmp_refl|].
  eapply cmp_trans; [apply Hheap; lia|]. apply IH; lia.
Qed.

Lemma heap_sort_build_heap fuel right m :
  2 * right + 2 < 2 ^ 32 → 0 ≤ right →
  wlp (heap_sort_build fuel right compare_func)
      (λ r m', r = None ∧ heap_on cmp 0 right (array_p m')) m.
Proof.
  intros Hr H0. unfold heap_sort_build. rewrite uint32_small by lia.
  apply wlp_for_down with (Inv := λ i m', heap_on cmp i right (array_p m')).
  - intros c Hc. lia.
  - intros i m1 Hi Hheap. rewrite uint32_small by lia. wlp_step.
    eapply wlp_mono.
    { apply to_heap_heap; [done|lia|].
      by replace (i - 1 + 1) with i by lia. }
    intros v m2 [-> Hheap2]. by wlp_step.
  - done.
Qed.

Lemma returns_cmp_contract : sort_cb_contract compare_func.
Proof. intros a b w. right. by rewrite Hcmp. Qed.

Lemma pperm_slot_suffix n (a2 a1 : list ecma_value_t) k :
  pperm n a2 a1 → Z.of_nat n ≤ k → slot a2 k = slot a1 k.
Proof.
  intros [_ Hd] Hk. unfold slot.
  replace (Z.to_nat k) with (n + (Z.to_nat k - n))%nat by lia.
  by rewrite <-!lookup_drop, Hd.
Qed.

Lemma pperm_slot_prefix n (a2 a1 : list ecma_value_t)
    (P : ecma_value_t → Prop) :
  pperm n a2 a1 → (n ≤ length a1)%nat →
  (∀ j, 0 ≤ j < Z.of_nat n → P (slot a1 j)) →
  ∀ j, 0 ≤ j < Z.of_nat n → P (slot a2 j).
Proof.
  intros Hpp Hn HP j Hj.
  assert (length a2 = length a1) as Hlen by (by eapply pperm_length).
  destruct Hpp as [Hp _].
  destruct (lookup_lt_is_Some_2 a2 (Z.to_nat j)) as [x Hx]; [lia|].
  rewrite (slot_lookup _ _ _ Hx).
  assert (x ∈ take n a1) as Hin.
  { rewrite <-Hp. apply list_elem_of_lookup. exists (Z.to_nat j).
    rewrite lookup_take_lt by lia. done. }
  apply list_elem_of_lookup in Hin as [j' Hj'].
  apply lookup_take_Some in Hj' as [Hj' Hlt].
  specialize (HP (Z.of_nat j') ltac:(lia)).
  by rewrite (slot_lookup a1 (Z.of_nat j') x) in HP by (by rewrite Nat2Z.id).
Qed.

Lemma extract_inv_step right i a a2 :
  0 < i ≤ right → right < Z.of_nat (length a) →
  extract_inv cmp right i a →
  pperm (Z.to_nat i)
    a2 (<[Z.to_nat i := slot a 0]> (<[Z.to_nat 0 := slot a i]> a)) →
  heap_on cmp 0 (i - 1) a2 →
  extract_inv cmp right (i - 1) a2.
Proof.
  intros Hi Hlen (Hheap & Hsorted & Hbound) Hpp Hheap2.
  set (a1 := <[Z.to_nat i := slot a 0]> (<[Z.to_nat 0 := slot a i]> a)) in *.
  assert (length a1 = length a) as Hlen1.
  { unfold a1. by rewrite !length_insert. }
  assert (slot a1 i = slot a 0) as Hai.
  { unfold a1. rewrite slot_insert_eq; [done|]. rewrite length_insert. lia. }
  assert (∀ k, i < k → slot a1 k = slot a k) as Hafter.
  { intros k Hk. unfold a1. by rewrite !slot_insert_ne by lia. }
  assert (∀ k, i ≤ k → slot a2 k = slot a1 k) as Hsuf.
  { intros k Hk. apply (pperm_slot_suffix _ _ _ _ Hpp). lia. }
  split; [done|]. split.
  - intros k Hk. replace (i - 1 + 1) with i in Hk by lia.
    rewrite !Hsuf by lia. rewrite (Hafter (k + 1)) by lia.
    destruct (decide (k = i)) as [->|Hne].
    + rewrite Hai. apply Hbound; lia.
    + rewrite Hafter by lia. apply Hsorted. lia.
  - intros _ j Hj. replace (i - 1 + 1) with i by lia.
    rewrite (Hsuf i) by lia. rewrite Hai.
    revert j Hj.
    cut (∀ j, 0 ≤ j < Z.of_nat (Z.to_nat i) → cmp (slot a2 j) (slot a 0) ≤ 0).
    { intros Hcut j Hj. apply Hcut. lia. }
    apply (pperm_slot_prefix _ _ _ (λ x, cmp x (slot a 0) ≤ 0) Hpp); [lia|].
    intros j Hj. unfold a1. rewrite slot_insert_ne by lia.
    destruct (decide (j = 0)) as [->|Hne].
    + rewrite slot_insert_eq by lia. apply (heap_root_max i); [done|lia].
    + rewrite slot_insert_ne by lia. apply (heap_root_max i); [done|lia].
Qed.

Lemma heap_on_after_swap i a v0 vi :
  0 < i → heap_on cmp 0 i a →
  heap_on cmp (0 + 1) (i - 1) (<[Z.to_nat i := v0]> (<[Z.to_nat 0 := vi]> a)).
Proof.
  intros Hi Hheap c Hc. rewrite !slot_insert_ne by lia. apply Hheap. lia.
Qed.

Lemma heap_sort_extract_sorted fuel right m :
  2 * right + 2 < 2 ^ 32 → 0 ≤ right →
  right < Z.of_nat (length (array_p m)) →
  heap_on cmp 0 right (array_p m) →
  wlp (heap_sort_extract fuel right compare_func)
      (λ r m', r = None ∧ sorted_from cmp 0 right (array_p m')) m.
Proof.
  intros Hr H0 Hlen Hheap. unfold heap_sort_extract.
  apply wlp_for_down with
    (Inv := λ i m', length (array_p m') = length (array_p m)
                    ∧ extract_inv cmp right i (array_p m')).
  - split; [done|]. rewrite Z2Nat.id by lia.
    split; [done|]. split; [|lia]. intros k Hk. lia.
  - intros i m1 Hi [Hlen1 Hinv]. destruct m1 as [arr1 w1 tr1]. simpl in *.
    do 2 wlp_step. do 2 wlp_step. do 2 wlp_step. do 2 wlp_step. wlp_step.
    slots.
    eapply wlp_mono.
    { apply wlp_conj.
      - apply to_heap_heap; [lia|lia|]. simpl.
        apply heap_on_after_swap; [lia|]. apply Hinv.
      - apply to_heap_perm; [lia|lia]. }
    intros v m2 [[-> Hheap2] Hpp]. simpl in Hpp. wlp_step.
    replace (i - 1 + 1) with i in Hpp by lia.
    split.
    + rewrite (pperm_length _ _ _ Hpp), !length_insert. done.
    + apply (extract_inv_step right i arr1); [lia|lia|done|done|done].
  - intros m1 [_ (_ & Hsorted & Hbound)]. split; [done|].
    intros k Hk. destruct (decide (k = 0)) as [->|Hne].
    + apply Hbound; lia.
    + apply Hsorted. lia.
Qed.

Lemma heap_sort_sorted fuel right m :
  2 * right + 2 < 2 ^ 32 → 0 ≤ right →
  right < Z.of_nat (length (array_p m)) →
  wlp (ecma_builtin_helper_array_heap_sort_helper fuel right compare_func)
      (λ v m', v = ECMA_VALUE_EMPTY ∧ sorted_from cmp 0 right (array_p m')) m.
Proof.
  intros Hr H0 Hlen.
  unfold ecma_builtin_helper_array_heap_sort_helper. wlp_step.
  eapply wlp_mono.
  { apply wlp_conj; [by apply heap_sort_build_heap|].
    by apply heap_sort_build_perm. }
  intros r m1 [[-> Hheap] Hp]. simpl in Hp. wlp_step.
  eapply wlp_mono.
  { apply heap_sort_extract_sorted; try done.
    by rewrite (Permutation_length Hp). }
  intros r m2 [-> Hsorted]. by wlp_step.
Qed.

End TotalOrder.

(** C8.  For a callback that never fails and returns numbers whose sign
    is that of a total order, the first loop alone (the calls of
    [ecma_builtin_helper_array_to_heap] from the middle of the array down
    to slot 0) runs to its end without returning early, and then slot 0
    compares greater than or equal to every other slot up to [right]. *)
Theorem heap_sort_build_root_is_greatest cmp fuel right compare_func arr w tr :
  returns_cmp cmp compare_func → sign_total_order cmp →
  0 ≤ right → Z.of_nat (length arr) = right + 1 →
  2 * right + 2 < 2 ^ 32 → right < Z.of_nat fuel →
  ∃ m',
    heap_sort_build fuel right compare_func (Machine arr w tr) = Done None m'
    ∧ ∀ i top x,
        1 ≤ i ≤ right →
        array_p m' !! 0%nat = Some top → array_p m' !! Z.to_nat i = Some x →
        0 ≤ cmp top x.
Proof.
  intros Hcmp Hord H0 Hlen Hr Hfuel.
  destruct (proj1 (wp_done _ _ _)
              (wp_wlp _ _ _ _
                 (heap_sort_build_safe fuel right compare_func
                    (Machine arr w tr)
                    (returns_cmp_contract cmp compare_func Hcmp) Hr H0
                    ltac:(simpl; lia) Hfuel)
                 (heap_sort_build_heap cmp compare_func Hord Hcmp fuel right
                    (Machine arr w tr) Hr H0)))
    as (r & m' & Hrun & _ & -> & Hheap).
  exists m'. split; [done|]. intros i top x Hi Htop Hx.
  apply (cmp_flip_ge cmp Hord).
  rewrite <-(slot_lookup _ i x Hx), <-(slot_lookup _ 0 top Htop).
  apply (heap_root_max cmp Hord right); [done|lia].
Qed.

(** C2.  For a callback that never fails and returns numbers whose sign
    is that of a total order, the call returns [ECMA_VALUE_EMPTY] and in
    the array it leaves (a permutation of the one passed in) the callback's
    number for every two adjacent slots [i], [i + 1] up to [right] is
    at most zero. *)
Theorem heap_sort_sorts cmp fuel right compare_func arr w tr :
  returns_cmp cmp compare_func → sign_total_order cmp →
  0 ≤ right → Z.of_nat (length arr) = right + 1 →
  2 * right + 2 < 2 ^ 32 → right < Z.of_nat fuel →
  ∃ m',
    ecma_builtin_helper_array_heap_sort_helper fuel right compare_func
      (Machine arr w tr) = Done ECMA_VALUE_EMPTY m'
    ∧ array_p m' ≡ₚ arr
    ∧ ∀ i x y,
        0 ≤ i < right →
        array_p m' !! Z.to_nat i = Some x →
        array_p m' !! Z.to_nat (i + 1) = Some y →
        cmp x y ≤ 0.
Proof.
  intros Hcmp Hord H0 Hlen Hr Hfuel.
  destruct (proj1 (wp_done _ _ _)
              (wp_wlp _ _ _ _
                 (heap_sort_safe fuel right compare_func (Machine arr w tr)
                    (returns_cmp_contract cmp compare_func Hcmp) Hr H0
                    ltac:(simpl; lia) Hfuel)
                 (wlp_conj _ _ _ _
                    (heap_sort_sorted cmp compare_func Hord Hcmp fuel right
                       (Machine arr w tr) Hr H0 ltac:(simpl; lia))
                    (heap_sort_perm fuel right compare_func
                       (Machine arr w tr) Hr H0))))
    as (v & m' & Hrun & _ & [-> Hsorted] & Hperm).
  exists m'. split; [done|]. split; [done|]. intros i x y Hi Hx Hy.
  rewrite <-(slot_lookup _ i x Hx), <-(slot_lookup _ (i + 1) y Hy).
  apply Hsorted. lia.
Qed.

(** ** Further properties of the two functions *)

Lemma adjacent_Sorted {A} (R : A → A → Prop) (l : list A) :
  (∀ i x y, l !! i = Some x → l !! S i = Some y → R x y) → Sorted R l.
Proof.
  induction l as [|a l IH]; intros H; constructor.
  - apply IH. intros i x y Hx Hy. by apply (H (S i)).
  - destruct l; constructor. by apply (H 0%nat).
Qed.

Lemma StronglySorted_lookup {A} (R : A → A → Prop) (l : list A) i j x y :
  StronglySorted R l → (i < j)%nat →
  l !! i = Some x → l !! j = Some y → R x y.
Proof.
  intros Hl. revert i j. induction Hl as [|a l Hl IH Hall]; intros i j Hij Hx Hy.
  { done. }
  destruct j as [|j]; [lia|]. destruct i as [|i]; simplify_eq/=.
  - rewrite Forall_forall in Hall. apply Hall. by eapply list_elem_of_lookup_2.
  - apply (IH i j); [lia|done|done].
Qed.

Lemma sorted_from_Sorted cmp right a :
  Z.of_nat (length a) = right + 1 → sorted_from cmp 0 right a →
  Sorted (λ x y, cmp x y ≤ 0) a.
Proof.
  intros Hlen Hs. apply adjacent_Sorted. intros i x y Hx Hy.
  pose proof (lookup_lt_Some _ _ _ Hy) as Hlt.
  specialize (Hs (Z.of_nat i) ltac:(lia)).
  rewrite (slot_lookup a (Z.of_nat i) x) in Hs by (by rewrite Nat2Z.id).
  rewrite (slot_lookup a (Z.of_nat i + 1) y) in Hs; [done|].
  by replace (Z.to_nat (Z.of_nat i + 1)) with (S i) by lia.
Qed.

Lemma cmp_Transitive cmp :
  sign_total_order cmp → Transitive (λ x y, cmp x y ≤ 0).
Proof. intros [_ Ht] x y z. apply Ht. Qed.

(** X1.  The sift-down does what it is for.  When the callback never fails
    and is a total order, and every slot after [index] up to [right] is at
    least its children, a call with [index] returns [ECMA_VALUE_EMPTY] and
    then every slot from [index] up to [right] is at least its children; the
    slots up to [right] are permuted and the slots after [right] are as they
    were. *)
Theorem to_heap_restores_heap cmp fuel index right compare_func m :
  returns_cmp cmp compare_func → sign_total_order cmp →
  0 ≤ index ≤ right → right < Z.of_nat (length (array_p m)) →
  2 * right + 2 < 2 ^ 32 → right < Z.of_nat fuel →
  heap_on cmp (index + 1) right (array_p m) →
  ∃ m',
    ecma_builtin_helper_array_to_heap fuel index right compare_func m
      = Done ECMA_VALUE_EMPTY m'
    ∧ heap_on cmp index right (array_p m')
    ∧ pperm (Z.to_nat (right + 1)) (array_p m') (array_p m).
Proof.
  intros Hcmp Hord Hi Hlen Hr Hfuel Hheap.
  destruct (proj1 (wp_done _ _ _)
              (wp_wlp _ _ _ _
                 (to_heap_safe fuel index right compare_func m
                    (returns_cmp_contract cmp compare_func Hcmp) Hr Hi Hlen
                    Hfuel)
                 (wlp_conj _ _ _ _
                    (to_heap_heap cmp compare_func Hord Hcmp fuel index right m
                       Hr Hi Hheap)
                    (to_heap_perm fuel index right compare_func m Hr Hi))))
    as (v & m' & Hrun & _ & [-> Hheap'] & Hpp).
  by exists m'.
Qed.

(** X2.  After the first loop alone, for a callback that never fails and is
    a total order, the array is a max-heap: every slot [c] from 1 up to
    [right] is at most its parent [(c - 1) / 2]; it is a permutation of the
    array passed in. *)
Theorem heap_sort_build_makes_heap cmp fuel right compare_func arr w tr :
  returns_cmp cmp compare_func → sign_total_order cmp →
  0 ≤ right → Z.of_nat (length arr) = right + 1 →
  2 * right + 2 < 2 ^ 32 → right < Z.of_nat fuel →
  ∃ m',
    heap_sort_build fuel right compare_func (Machine arr w tr) = Done None m'
    ∧ array_p m' ≡ₚ arr
    ∧ ∀ c x y,
        1 ≤ c ≤ right →
        array_p m' !! Z.to_nat c = Some x →
        array_p m' !! Z.to_nat ((c - 1) `div` 2) = Some y →
        cmp x y ≤ 0.
Proof.
  intros Hcmp Hord H0 Hlen Hr Hfuel.
  destruct (proj1 (wp_done _ _ _)
              (wp_wlp _ _ _ _
                 (heap_sort_build_safe fuel right compare_func
                    (Machine arr w tr)
                    (returns_cmp_contract cmp compare_func Hcmp) Hr H0
                    ltac:(simpl; lia) Hfuel)
                 (wlp_conj _ _ _ _
                    (heap_sort_build_heap cmp compare_func Hord Hcmp fuel right
                       (Machine arr w tr) Hr H0)
                    (heap_sort_build_perm fuel right compare_func
                       (Machine arr w tr) Hr H0))))
    as (r & m' & Hrun & _ & [-> Hheap] & Hperm).
  exists m'. split; [done|]. split; [done|]. intros c x y Hc Hx Hy.
  rewrite <-(slot_lookup _ c x Hx), <-(slot_lookup _ _ y Hy).
  apply Hheap. lia.
Qed.

(** X3.  The second loop alone, run on a max-heap with a callback that
    never fails and is a total order, runs to its end and leaves the array
    in order, a permutation of the heap. *)
Theorem heap_sort_extract_sorts_heap cmp fuel right compare_func arr w tr :
  returns_cmp cmp compare_func → sign_total_order cmp →
  0 ≤ right → Z.of_nat (length arr) = right + 1 →
  2 * right + 2 < 2 ^ 32 → right < Z.of_nat fuel →
  heap_on cmp 0 right arr →
  ∃ m',
    heap_sort_extract fuel right compare_func (Machine arr w tr) = Done None m'
    ∧ array_p m' ≡ₚ arr
    ∧ ∀ i x y,
        0 ≤ i < right →
        array_p m' !! Z.to_nat i = Some x →
        array_p m' !! Z.to_nat (i + 1) = Some y →
        cmp x y ≤ 0.
Proof.
  intros Hcmp Hord H0 Hlen Hr Hfuel Hheap.
  destruct (proj1 (wp_done _ _ _)
              (wp_wlp _ _ _ _
                 (heap_sort_extract_safe fuel right compare_func
                    (Machine arr w tr)
                    (returns_cmp_contract cmp compare_func Hcmp) Hr H0
                    ltac:(simpl; lia) Hfuel)
                 (wlp_conj _ _ _ _
                    (heap_sort_extract_sorted cmp compare_func Hord Hcmp fuel
                       right (Machine arr w tr) Hr H0 ltac:(simpl; lia) Hheap)
                    (heap_sort_extract_perm fuel right compare_func
                       (Machine arr w tr) Hr H0))))
    as (r & m' & Hrun & _ & [-> Hsorted] & Hperm).
  exists m'. split; [done|]. split; [done|]. intros i x y Hi Hx Hy.
  rewrite <-(slot_lookup _ i x Hx), <-(slot_lookup _ (i + 1) y Hy).
  apply Hsorted. lia.
Qed.

(** X4.  For a callback that never fails and is a total order the sorted
    array is in order between any two slots, not only adjacent ones: for
    [i <= j] the callback's number for slots [i] and [j] is at most zero.
    So slot 0 holds a least and slot [right] a greatest value. *)
Theorem heap_sort_orders_all_pairs cmp fuel right compare_func arr w tr :
  returns_cmp cmp compare_func → sign_total_order cmp →
  0 ≤ right → Z.of_nat (length arr) = right + 1 →
  2 * right + 2 < 2 ^ 32 → right < Z.of_nat fuel →
  ∃ m',
    ecma_builtin_helper_array_heap_sort_helper fuel right compare_func
      (Machine arr w tr) = Done ECMA_VALUE_EMPTY m'
    ∧ ∀ i j x y,
        0 ≤ i ≤ j → j ≤ right →
        array_p m' !! Z.to_nat i = Some x →
        array_p m' !! Z.to_nat j = Some y →
        cmp x y ≤ 0.
Proof.
  intros Hcmp Hord H0 Hlen Hr Hfuel.
  destruct (proj1 (wp_done _ _ _)
              (wp_wlp _ _ _ _
                 (heap_sort_safe fuel right compare_func (Machine arr w tr)
                    (returns_cmp_contract cmp compare_func Hcmp) Hr H0
                    ltac:(simpl; lia) Hfuel)
                 (heap_sort_sorted cmp compare_func Hord Hcmp fuel right
                    (Machine arr w tr) Hr H0 ltac:(simpl; lia))))
    as (v & m' & Hrun & [_ [Hl _]] & [-> Hsorted]).
  exists m'. split; [done|]. intros i j x y Hij Hj Hx Hy.
  destruct (decide (i = j)) as [->|Hne].
  { assert (x = y) as -> by congruence. by apply cmp_refl. }
  simpl in Hl.
  eapply (StronglySorted_lookup (λ x y, cmp x y ≤ 0) (array_p m')
            (Z.to_nat i) (Z.to_nat j)); [|lia|done|done].
  apply (@Sorted_StronglySorted _ _ (cmp_Transitive cmp Hord)).
  apply (sorted_from_Sorted cmp right); [lia|done].
Qed.

(** X5.  When in addition only equal values of the array compare equal
    ([cmp a b = 0] only for [a = b], as for numbers under subtraction), the
    result is the one arrangement of the values that is in order: whatever
    permutation of an array in order is passed in, the call leaves that
    array.  So the result does not depend on the order of the input, and an
    array in order is left as it is. *)
Theorem heap_sort_result_unique cmp fuel right compare_func arr sorted w tr :
  returns_cmp cmp compare_func → sign_total_order cmp →
  (∀ a b, a ∈ arr → b ∈ arr → cmp a b = 0 → a = b) →
  0 ≤ right → Z.of_nat (length arr) = right + 1 →
  2 * right + 2 < 2 ^ 32 → right < Z.of_nat fuel →
  arr ≡ₚ sorted → sorted_from cmp 0 right sorted →
  ∃ m',
    ecma_builtin_helper_array_heap_sort_helper fuel right compare_func
      (Machine arr w tr) = Done ECMA_VALUE_EMPTY m'
    ∧ array_p m' = sorted.
Proof.
  intros Hcmp Hord Hstrict H0 Hlen Hr Hfuel Hperm0 Hsorted0.
  destruct (proj1 (wp_done _ _ _)
              (wp_wlp _ _ _ _
                 (heap_sort_safe fuel right compare_func (Machine arr w tr)
                    (returns_cmp_contract cmp compare_func Hcmp) Hr H0
                    ltac:(simpl; lia) Hfuel)
                 (wlp_conj _ _ _ _
                    (heap_sort_sorted cmp compare_func Hord Hcmp fuel right
                       (Machine arr w tr) Hr H0 ltac:(simpl; lia))
                    (heap_sort_perm fuel right compare_func
                       (Machine arr w tr) Hr H0))))
    as (v & m' & Hrun & [_ [Hl _]] & [-> Hsorted] & Hperm).
  exists m'. split; [done|]. simpl in Hl, Hperm.
  apply (@Sorted_unique_strong _ (λ x y, cmp x y ≤ 0) (cmp_Transitive cmp Hord)).
  - intros x y Hx Hy Hxy Hyx. apply Hstrict.
    + by rewrite <-Hperm.
    + by rewrite Hperm0.
    + pose proof (cmp_flip_ge cmp Hord _ _ Hyx). lia.
  - apply (sorted_from_Sorted cmp right); [lia|done].
  - apply (sorted_from_Sorted cmp right); [|done].
    rewrite <-(Permutation_length Hperm0). lia.
  - by rewrite Hperm.
Qed.

(** ** The sift-down stays in the subtree of [index] *)

Ltac frame_leaf :=
  split;
  [ split; simpl;
    [ rewrite ?take_insert_ge by lia; done
    | repeat (apply trace_snoc; [|first [done | simpl; lia]]);
      first [done | apply trace_start] ]
  | simpl; lia ].

Lemma to_heap_body_frame index right swap f m0 child r m :
  2 * right + 2 < 2 ^ 32 → 0 ≤ index → 2 * index + 1 ≤ child →
  frame_post index right m0 m →
  wlp (to_heap_body right swap f (child, r))
      (λ c m', frame_post index right m0 m'
               ∧ match c with
                 | Next l' => 2 * index + 1 ≤ l'.1 ≤ 2 * right + 1
                 | Brk l' => 2 * index + 1 ≤ l'.1 ≤ 2 * right + 1
                 end) m.
Proof.
  intros Hr H0 Hc [Ht Hs]. destruct m as [arr w tr]. simpl in *.
  cbv beta delta [to_heap_body to_heap_select_child to_heap_compare_swap].
  repeat wlp_step; frame_leaf.
Qed.

Lemma to_heap_frame fuel index right f m :
  2 * right + 2 < 2 ^ 32 → 0 ≤ index ≤ right →
  wlp (ecma_builtin_helper_array_to_heap fuel index right f)
      (λ _ m', frame_post index right m m') m.
Proof.
  intros Hr Hi.
  cbv beta delta [ecma_builtin_helper_array_to_heap to_heap_loop].
  do 3 wlp_step. rename v into swap. wlp_step.
  eapply wlp_mono.
  { apply wlp_while with
      (Inv := λ l m', frame_post index right m m'
                      ∧ 2 * index + 1 ≤ l.1 ≤ 2 * right + 1)
      (Q := λ l m', frame_post index right m m'
                    ∧ 2 * index + 1 ≤ l.1 ≤ 2 * right + 1).
    - split; [|simpl; lia]. split; simpl; [done|].
      exists [EvRead index swap]. split; [done|]. constructor; [simpl; lia|done].
    - intros [child r] m1 [Hf Hc] _. simpl in *.
      eapply wlp_mono;
        [apply (to_heap_body_frame index right swap f m); [done|lia|lia|done]|].
      by intros [l'|l'] m2 Hpost.
    - done. }
  intros [child r] m1 [[Ht Hs] Hc]. simpl in *.
  destruct m1 as [arr1 w1 tr1]. simpl in *.
  repeat wlp_step. split; simpl.
  - rewrite take_insert_ge by lia. done.
  - apply trace_snoc; [done|]. simpl. lia.
Qed.

(** X6.  A sift-down from [index] works in the slots [index .. right]
    only: it ends, every read and write of the array is to a slot in that
    range, and the slots before [index] and after [right] hold what they
    held, whatever the callback answers. *)
Theorem to_heap_touches_only_index_to_right fuel index right compare_func m :
  sort_cb_contract compare_func →
  0 ≤ index ≤ right → right < Z.of_nat (length (array_p m)) →
  2 * right + 2 < 2 ^ 32 → right < Z.of_nat fuel →
  ∃ v m' t,
    ecma_builtin_helper_array_to_heap fuel index right compare_func m
      = Done v m'
    ∧ trace m' = trace m ++ t
    ∧ (∀ i x, EvRead i x ∈ t ∨ EvWrite i x ∈ t → index ≤ i ≤ right)
    ∧ ∀ j, 0 ≤ j < index ∨ right < j →
           array_p m' !! Z.to_nat j = array_p m !! Z.to_nat j.
Proof.
  intros Hcb Hi Hlen Hr Hfuel.
  destruct (proj1 (wp_done _ _ _)
              (wp_wlp _ _ _ _
                 (to_heap_safe fuel index right compare_func m Hcb Hr Hi Hlen
                    Hfuel)
                 (wlp_conj _ _ _ _
                    (to_heap_frame fuel index right compare_func m Hr Hi)
                    (to_heap_perm fuel index right compare_func m Hr Hi))))
    as (v & m' & Hrun & _ & [Htake (t & Ht & Hall)] & [_ Hdrop]).
  exists v, m', t. split; [done|]. split; [done|]. split.
  - rewrite Forall_forall in Hall.
    intros i x [Hin|Hin]; apply Hall in Hin; exact Hin.
  - intros j [Hj|Hj].
    + rewrite <-(lookup_take_lt (array_p m') (Z.to_nat index)) by lia.
      rewrite <-(lookup_take_lt (array_p m) (Z.to_nat index)) by lia.
      by rewrite Htake.
    + replace (Z.to_nat j)
        with (Z.to_nat (right + 1) + (Z.to_nat j - Z.to_nat (right + 1)))%nat
        by lia.
      by rewrite <-!lookup_drop, Hdrop.
Qed.

(** ** How often the callback is invoked *)

Lemma calls_le_app tr0 n tr t' n' :
  calls_le tr0 n tr → n + Z.of_nat (length (call_results t')) ≤ n' →
  calls_le tr0 n' (tr ++ t').
Proof.
  intros (t & -> & Hn) Hn'. exists (t ++ t'). split; [by rewrite app_assoc|].
  unfold call_results in *. rewrite omap_app, length_app. lia.
Qed.

Lemma calls_le_refl tr0 : calls_le tr0 0 tr0.
Proof. exists []. by rewrite app_nil_r. Qed.

Lemma calls_le_trans tr0 n1 tr1 n2 tr2 n :
  calls_le tr0 n1 tr1 → calls_le tr1 n2 tr2 → n1 + n2 ≤ n →
  calls_le tr0 n tr2.
Proof. intros H1 (t2 & -> & H2) Hn. eapply calls_le_app; [done|lia]. Qed.

Ltac calls_leaf :=
  split;
  [ simpl; rewrite <-?app_assoc; simpl;
    eapply calls_le_app; [eassumption | simpl; lia]
  | simpl; lia ].

(** One run of the loop body invokes the callback at most twice, and when
    the loop goes on [child + 1] has at least doubled. *)
Lemma to_heap_body_calls right swap f tr0 n child r m :
  2 * right + 2 < 2 ^ 32 → 1 ≤ child →
  calls_le tr0 n (trace m) →
  wlp (to_heap_body right swap f (child, r))
      (λ c m', calls_le tr0 (n + 2) (trace m')
               ∧ match c with
                 | Next l' => 2 * (child + 1) ≤ l'.1 + 1 ≤ 2 * right + 2
                 | Brk l' => True
                 end) m.
Proof.
  intros Hr Hc Hn. destruct m as [arr w tr]. simpl in *.
  cbv beta delta [to_heap_body to_heap_select_child to_heap_compare_swap].
  repeat wlp_step; calls_leaf.
Qed.

Lemma pow2_double x k : 0 ≤ k → x * 2 ^ (k + 1) = 2 * (x * 2 ^ k).
Proof. intros Hk. rewrite Z.pow_add_r by lia. change (2 ^ 1) with 2. ring. Qed.

Lemma subtree_height index right k :
  0 ≤ index ≤ right → 0 ≤ k → (index + 1) * 2 ^ k ≤ right + 1 →
  k ≤ Z.log2 ((right + 1) `div` (index + 1)).
Proof.
  intros Hi Hk Hle. apply Z.log2_le_pow2.
  - apply Z.div_str_pos. lia.
  - apply Z.div_le_lower_bound; lia.
Qed.

Lemma to_heap_calls fuel index right f m :
  2 * right + 2 < 2 ^ 32 → 0 ≤ index ≤ right →
  wlp (ecma_builtin_helper_array_to_heap fuel index right f)
      (λ _ m', calls_le (trace m)
                 (2 * Z.log2 ((right + 1) `div` (index + 1))) (trace m')) m.
Proof.
  intros Hr Hi.
  cbv beta delta [ecma_builtin_helper_array_to_heap to_heap_loop].
  do 3 wlp_step. rename v into swap. wlp_step.
  eapply wlp_mono.
  { apply wlp_while with
      (Inv := λ l m',
         1 ≤ l.1
         ∧ ∃ k, 0 ≤ k ∧ calls_le (trace m) (2 * k) (trace m')
                ∧ (index + 1) * 2 ^ k ≤ right + 1
                ∧ (index + 1) * 2 ^ (k + 1) ≤ l.1 + 1)
      (Q := λ l m',
         ∃ k, 0 ≤ k ∧ calls_le (trace m) (2 * k) (trace m')
              ∧ (index + 1) * 2 ^ k ≤ right + 1).
    - simpl. split; [lia|]. exists 0. split; [done|]. split.
      + apply (calls_le_app _ 0 _ [EvRead index swap]);
          [apply calls_le_refl|simpl; lia].
      + change (2 ^ 0) with 1. change (2 ^ (0 + 1)) with 2. lia.
    - intros [child r] m1 (Hc & k & Hk & Hcalls & Hlo & Hhi) Hcond.
      simpl in *. bool_hyps.
      eapply wlp_mono;
        [apply (to_heap_body_calls right swap f (trace m) (2 * k));
           [done|done|done]|].
      assert ((index + 1) * 2 ^ (k + 1) ≤ right + 1) by lia.
      intros [l'|l'] m2 [Hcalls' Hl']; simpl in *.
      + split; [lia|]. exists (k + 1). split; [lia|].
        split; [by replace (2 * (k + 1)) with (2 * k + 2) by lia|].
        split; [done|]. rewrite (pow2_double _ (k + 1)) by lia. lia.
      + exists (k + 1). split; [lia|].
        split; [by replace (2 * (k + 1)) with (2 * k + 2) by lia|done].
    - intros [child r] m1 (Hc & k & Hk & Hcalls & Hlo & Hhi) _. by exists k. }
  intros [child r] m1 (k & Hk & Hcalls & Hlo). simpl in *.
  destruct m1 as [arr1 w1 tr1]. simpl in *.
  repeat wlp_step.
  eapply calls_le_app; [exact Hcalls|]. simpl.
  pose proof (subtree_height index right k Hi Hk Hlo). lia.
Qed.

Lemma log2_div_le right i :
  0 ≤ right → 0 < i → Z.log2 ((right + 1) `div` i) ≤ Z.log2 (right + 1).
Proof.
  intros H0 Hi. apply Z.log2_le_mono. apply Z.div_le_upper_bound; nia.
Qed.

Lemma heap_sort_build_calls fuel right f m :
  2 * right + 2 < 2 ^ 32 → 0 ≤ right →
  wlp (heap_sort_build fuel right f)
      (λ _ m', calls_le (trace m)
                 (2 * Z.log2 (right + 1) * (right `div` 2 + 1)) (trace m')) m.
Proof.
  intros Hr H0. unfold heap_sort_build. rewrite uint32_small by lia.
  pose proof (Z.log2_nonneg (right + 1)) as HL.
  apply wlp_for_down with
    (Inv := λ i m', calls_le (trace m)
                      (2 * Z.log2 (right + 1) * (right `div` 2 + 1 - i))
                      (trace m'))
    (Q := λ _ m', calls_le (trace m)
                    (2 * Z.log2 (right + 1) * (right `div` 2 + 1)) (trace m')).
  - eapply calls_le_trans; [apply calls_le_refl|apply calls_le_refl|].
    rewrite Z2Nat.id by lia. lia.
  - intros i m1 Hi Hc. rewrite Z2Nat.id in Hi by lia.
    rewrite uint32_small by lia. wlp_step.
    eapply wlp_mono; [apply to_heap_calls; [done|lia]|].
    intros v m2 Hc2. simpl in Hc2.
    replace (i - 1 + 1) with i in Hc2 by lia.
    pose proof (log2_div_le right i H0 ltac:(lia)).
    repeat wlp_step; (eapply calls_le_trans; [exact Hc|exact Hc2|nia]).
  - intros m1 Hc. by rewrite Z.sub_0_r in Hc.
Qed.

Lemma heap_sort_extract_calls fuel right f m :
  2 * right + 2 < 2 ^ 32 → 0 ≤ right →
  wlp (heap_sort_extract fuel right f)
      (λ _ m', calls_le (trace m) (2 * Z.log2 (right + 1) * right)
                 (trace m')) m.
Proof.
  intros Hr H0. unfold heap_sort_extract.
  pose proof (Z.log2_nonneg (right + 1)) as HL.
  apply wlp_for_down with
    (Inv := λ i m', calls_le (trace m)
                      (2 * Z.log2 (right + 1) * (right - i)) (trace m'))
    (Q := λ _ m', calls_le (trace m) (2 * Z.log2 (right + 1) * right)
                    (trace m')).
  - eapply calls_le_trans; [apply calls_le_refl|apply calls_le_refl|].
    rewrite Z2Nat.id by lia. lia.
  - intros i m1 Hi Hc. rewrite Z2Nat.id in Hi by lia.
    destruct m1 as [arr1 w1 tr1]. simpl in *.
    do 2 wlp_step. do 2 wlp_step. do 2 wlp_step. do 2 wlp_step. wlp_step.
    eapply wlp_mono; [apply to_heap_calls; [lia|lia]|].
    intros v1 m2 Hc2. simpl in Hc2.
    replace (i - 1 + 1) with i in Hc2 by lia.
    change (0 + 1) with 1 in Hc2. rewrite Z.div_1_r in Hc2.
    assert (Z.log2 i ≤ Z.log2 (right + 1)) by (apply Z.log2_le_mono; lia).
    assert (calls_le tr1 (2 * Z.log2 i) (trace m2)).
    { eapply (calls_le_trans _ 0); [|exact Hc2|lia].
      rewrite <-?app_assoc. simpl.
      eapply calls_le_app; [apply calls_le_refl|simpl; lia]. }
    repeat wlp_step; (eapply calls_le_trans; [exact Hc|eassumption|nia]).
  - intros m1 Hc. by rewrite Z.sub_0_r in Hc.
Qed.

Lemma heap_sort_calls fuel right f m :
  2 * right + 2 < 2 ^ 32 → 0 ≤ right →
  wlp (ecma_builtin_helper_array_heap_sort_helper fuel right f)
      (λ _ m', calls_le (trace m) ((3 * right + 2) * Z.log2 (right + 1))
                 (trace m')) m.
Proof.
  intros Hr H0. unfold ecma_builtin_helper_array_heap_sort_helper.
  pose proof (Z.log2_nonneg (right + 1)) as HL.
  wlp_step. eapply wlp_mono; [by apply heap_sort_build_calls|].
  intros [v|] m1 Hc; simpl in Hc.
  - wlp_step. eapply calls_le_trans; [exact Hc|apply calls_le_refl|nia].
  - wlp_step. eapply wlp_mono; [by apply heap_sort_extract_calls|].
    intros r m2 Hc2. simpl in Hc2.
    destruct r; wlp_step; (eapply calls_le_trans; [exact Hc|exact Hc2|nia]).
Qed.

(** X7.  A sift-down from [index] invokes the callback at most twice for
    each level of the tree below [index]: at most
    [2 * log2 ((right + 1) / (index + 1))] times, whatever the callback
    answers. *)
Theorem to_heap_invocations_bounded fuel index right compare_func m :
  sort_cb_contract compare_func →
  0 ≤ index ≤ right → right < Z.of_nat (length (array_p m)) →
  2 * right + 2 < 2 ^ 32 → right < Z.of_nat fuel →
  ∃ v m' t,
    ecma_builtin_helper_array_to_heap fuel index right compare_func m
      = Done v m'
    ∧ trace m' = trace m ++ t
    ∧ Z.of_nat (length (call_results t))
      ≤ 2 * Z.log2 ((right + 1) `div` (index + 1)).
Proof.
  intros Hcb Hi Hlen Hr Hfuel.
  destruct (proj1 (wp_done _ _ _)
              (wp_wlp _ _ _ _
                 (to_heap_safe fuel index right compare_func m Hcb Hr Hi Hlen
                    Hfuel)
                 (to_heap_calls fuel index right compare_func m Hr Hi)))
    as (v & m' & Hrun & _ & t & Ht & Hn).
  by exists v, m', t.
Qed.

(** X8.  Sorting [right + 1] values invokes the callback at most
    [(3 * right + 2) * log2 (right + 1)] times, whatever the callback
    answers. *)
Theorem heap_sort_invocations_bounded fuel right compare_func m :
  sort_cb_contract compare_func →
  0 ≤ right → right < Z.of_nat (length (array_p m)) →
  2 * right + 2 < 2 ^ 32 → right < Z.of_nat fuel →
  ∃ v m' t,
    ecma_builtin_helper_array_heap_sort_helper fuel right compare_func m
      = Done v m'
    ∧ trace m' = trace m ++ t
    ∧ Z.of_nat (length (call_results t))
      ≤ (3 * right + 2) * Z.log2 (right + 1).
Proof.
  intros Hcb H0 Hlen Hr Hfuel.
  destruct (proj1 (wp_done _ _ _)
              (wp_wlp _ _ _ _
                 (heap_sort_safe fuel right compare_func m Hcb Hr H0 Hlen Hfuel)
                 (heap_sort_calls fuel right compare_func m Hr H0)))
    as (v & m' & Hrun & _ & t & Ht & Hn).
  by exists v, m', t.
Qed.

(** ** What the callback is given *)

Lemma elem_of_insert_sub {A} (l l0 : list A) i c :
  (∀ x, x ∈ l → x ∈ l0) → c ∈ l0 → ∀ x, x ∈ <[i:=c]> l → x ∈ l0.
Proof.
  intros Hsub Hc x Hx. apply list_elem_of_lookup in Hx as [j Hj].
  apply list_lookup_insert_Some in Hj as [(_ & <- & _)|[_ Hj]]; [done|].
  apply Hsub. by eapply list_elem_of_lookup_2.
Qed.

Ltac in_arr0 :=
  repeat match goal with
  | Hsub : (∀ x, x ∈ ?arr → x ∈ _), H : ?arr !! _ = Some _ |- _ =>
      apply list_elem_of_lookup_2 in H; apply Hsub in H
  end.

Ltac args_leaf :=
  in_arr0; split; simpl;
  [ first [assumption | by apply elem_of_insert_sub]
  | repeat (apply trace_snoc; [|first [done | by split]]);
    first [done | apply trace_start] ].

Lemma to_heap_body_args right swap f arr0 tr0 child r m :
  swap ∈ arr0 → args_inv arr0 tr0 m →
  wlp (to_heap_body right swap f (child, r))
      (λ c m', args_inv arr0 tr0 m') m.
Proof.
  intros Hswap [Hsub Ht]. destruct m as [arr w tr]. simpl in *.
  cbv beta delta [to_heap_body to_heap_select_child to_heap_compare_swap].
  repeat wlp_step; args_leaf.
Qed.

Lemma to_heap_args fuel index right f arr0 tr0 m :
  args_inv arr0 tr0 m →
  wlp (ecma_builtin_helper_array_to_heap fuel index right f)
      (λ _ m', args_inv arr0 tr0 m') m.
Proof.
  intros [Hsub Ht]. destruct m as [arr w tr]. simpl in *.
  cbv beta delta [ecma_builtin_helper_array_to_heap to_heap_loop].
  do 3 wlp_step. rename v into swap. wlp_step.
  assert (swap ∈ arr0).
  { apply Hsub. by eapply list_elem_of_lookup_2. }
  eapply wlp_mono.
  { apply wlp_while with
      (Inv := λ _ m', args_inv arr0 tr0 m')
      (Q := λ _ m', args_inv arr0 tr0 m').
    - split; simpl; [done|]. by apply trace_snoc.
    - intros [child r] m1 Hinv _.
      eapply wlp_mono; [by apply to_heap_body_args|].
      by intros [l'|l'] m2 Hpost.
    - done. }
  intros [child r] m1 [Hsub1 Ht1]. destruct m1 as [arr1 w1 tr1]. simpl in *.
  repeat wlp_step. split; simpl.
  - by apply elem_of_insert_sub.
  - by apply trace_snoc.
Qed.

Lemma heap_sort_args fuel right f arr0 tr0 m :
  args_inv arr0 tr0 m →
  wlp (ecma_builtin_helper_array_heap_sort_helper fuel right f)
      (λ _ m', args_inv arr0 tr0 m') m.
Proof.
  intros Hinv. unfold ecma_builtin_helper_array_heap_sort_helper. wlp_step.
  eapply wlp_mono.
  { unfold heap_sort_build.
    apply wlp_for_down with
      (Inv := λ _ m', args_inv arr0 tr0 m')
      (Q := λ _ m', args_inv arr0 tr0 m'); [done| |done].
    intros i m1 _ Hinv1. wlp_step.
    eapply wlp_mono; [by apply to_heap_args|].
    intros v m2 Hinv2. simpl in Hinv2. repeat wlp_step; done. }
  intros [v|] m1 Hinv1; simpl in Hinv1; [by wlp_step|]. wlp_step.
  eapply wlp_mono.
  { unfold heap_sort_extract.
    apply wlp_for_down with
      (Inv := λ _ m', args_inv arr0 tr0 m')
      (Q := λ _ m', args_inv arr0 tr0 m'); [done| |done].
    intros i m2 _ [Hsub2 Ht2]. destruct m2 as [arr2 w2 tr2]. simpl in *.
    do 2 wlp_step. do 2 wlp_step. do 2 wlp_step. do 2 wlp_step. wlp_step.
    eapply wlp_mono.
    { apply (to_heap_args _ _ _ _ arr0 tr0). in_arr0.
      split; cbn [array_p trace].
      - by do 2 (apply elem_of_insert_sub; [|done]).
      - by do 4 (apply trace_snoc; [|done]). }
    intros v3 m3 Hinv3. simpl in Hinv3. repeat wlp_step; done. }
  intros r m2 Hinv2. simpl in Hinv2. destruct r; by wlp_step.
Qed.

(** X9.  The callback is only ever given values of the array that was
    passed in: in every invocation made by the sort, both arguments are
    elements of the initial array. *)
Theorem heap_sort_compares_array_values fuel right compare_func arr w tr :
  sort_cb_contract compare_func →
  0 ≤ right → Z.of_nat (length arr) = right + 1 →
  2 * right + 2 < 2 ^ 32 → right < Z.of_nat fuel →
  ∃ v m' t,
    ecma_builtin_helper_array_heap_sort_helper fuel right compare_func
      (Machine arr w tr) = Done v m'
    ∧ trace m' = tr ++ t
    ∧ ∀ a b r, EvCall a b r ∈ t → a ∈ arr ∧ b ∈ arr.
Proof.
  intros Hcb H0 Hlen Hr Hfuel.
  destruct (proj1 (wp_done _ _ _)
              (wp_wlp _ _ _ _
                 (heap_sort_safe fuel right compare_func (Machine arr w tr)
                    Hcb Hr H0 ltac:(simpl; lia) Hfuel)
                 (heap_sort_args fuel right compare_func arr tr
                    (Machine arr w tr)
                    (conj (λ x H, H) (trace_start _ tr)))))
    as (v & m' & Hrun & _ & _ & t & Ht & Hall).
  exists v, m', t. split; [done|]. split; [done|].
  rewrite Forall_forall in Hall. intros a b r Hin. by apply Hall in Hin.
Qed.

(** ** Whether the callback is invoked at all *)

(** A sift-down from a slot without a child up to [right]: the loop is not
    entered. *)
Lemma to_heap_leaf fuel index right f m :
  2 * right + 2 < 2 ^ 32 → 0 ≤ index ≤ right → right < 2 * index + 1 →
  wlp (ecma_builtin_helper_array_to_heap fuel index right f)
      (λ v m', v = ECMA_VALUE_EMPTY ∧ array_p m' = array_p m
               ∧ calls_inv (trace m) [] (trace m')) m.
Proof.
  intros Hr Hi Hleaf.
  cbv beta delta [ecma_builtin_helper_array_to_heap to_heap_loop].
  do 3 wlp_step. rename v into swap. wlp_step.
  eapply wlp_mono.
  { apply wlp_while with
      (Inv := λ l m', l = (index * 2 + 1, ECMA_VALUE_EMPTY)
                      ∧ array_p m' = array_p m
                      ∧ calls_inv (trace m) [] (trace m'))
      (Q := λ l m', l = (index * 2 + 1, ECMA_VALUE_EMPTY)
                    ∧ array_p m' = array_p m
                    ∧ calls_inv (trace m) [] (trace m')).
    - split; [done|]. split; [done|]. simpl.
      apply calls_inv_snoc_quiet; [|done]. exists []. by rewrite app_nil_r.
    - intros l m1 (-> & _) Hcond. simpl in Hcond. bool_hyps. lia.
    - done. }
  intros [child r] m1 ([= -> ->] & Harr & Hc). destruct m1 as [arr1 w1 tr1].
  simpl in *. subst arr1. repeat wlp_step. simpl.
  replace ((index * 2 + 1 - 1) `div` 2) with index by lia.
  rewrite list_insert_id by done. split; [done|]. split; [done|].
  by apply calls_inv_snoc_quiet.
Qed.

(** X10.  A sift-down from [index] invokes the callback exactly when
    [index] has a child up to [right], that is when [2 * index + 1 <=
    right]; without one it returns [ECMA_VALUE_EMPTY] and leaves the
    array as it was. *)
Theorem to_heap_invokes_iff_child fuel index right compare_func m :
  sort_cb_contract compare_func →
  0 ≤ index ≤ right → right < Z.of_nat (length (array_p m)) →
  2 * right + 2 < 2 ^ 32 → right < Z.of_nat fuel →
  ∃ v m' t,
    ecma_builtin_helper_array_to_heap fuel index right compare_func m
      = Done v m'
    ∧ trace m' = trace m ++ t
    ∧ (call_results t = [] ↔ right < 2 * index + 1)
    ∧ (right < 2 * index + 1 →
       v = ECMA_VALUE_EMPTY ∧ array_p m' = array_p m).
Proof.
  intros Hcb Hi Hlen Hr Hfuel.
  destruct (proj1 (wp_done _ _ _)
              (to_heap_safe fuel index right compare_func m Hcb Hr Hi Hlen
                 Hfuel))
    as (v & m' & Hrun & _ & _ & t & Ht & _).
  exists v, m', t. split; [done|]. split; [done|].
  assert (right < 2 * index + 1 →
          v = ECMA_VALUE_EMPTY ∧ array_p m' = array_p m
          ∧ call_results t = []) as Hleaf.
  { intros Hlt.
    pose proof (wlp_done _ _ _ _ _
                  (to_heap_leaf fuel index right compare_func m Hr Hi Hlt)
                  Hrun) as (-> & Harr & t' & Ht' & Hcs).
    rewrite Ht in Ht'. apply app_inv_head in Ht'. by subst t'. }
  split; [|by intros Hlt; destruct (Hleaf Hlt) as (? & ? & _)].
  split; [|by intros Hlt; destruct (Hleaf Hlt) as (_ & _ & ?)].
  intros Hnil.
  pose proof (wlp_done _ _ _ _ _
                (to_heap_first fuel index right compare_func m Hr Hi) Hrun)
    as [(r & rest & (t' & Ht' & Hcs) & _)
       |[(_ & _ & _ & Hlt)|[(t' & Ht' & Hcs) _]]]; [|done|].
  - rewrite Ht in Ht'. apply app_inv_head in Ht'. subst t'. congruence.
  - rewrite Ht in Ht'. apply app_inv_head in Ht'. subst t'. congruence.
Qed.

Lemma invoked_ext tr0 tr tr' :
  invoked tr0 tr → (∃ t, tr' = tr ++ t) → invoked tr0 tr'.
Proof.
  intros (t & -> & Hne) (t' & ->). exists (t ++ t').
  split; [by rewrite app_assoc|]. unfold call_results in *.
  rewrite omap_app. intros [E _]%app_eq_nil. done.
Qed.

Lemma first_ok_invoked tr0 tr : first_ok tr0 tr → invoked tr0 tr.
Proof. intros (r & rest & (t & -> & Hcs) & _). exists t. by rewrite Hcs. Qed.

Lemma heap_sort_invoked fuel right f m :
  2 * right + 2 < 2 ^ 32 → 1 ≤ right →
  wlp (ecma_builtin_helper_array_heap_sort_helper fuel right f)
      (λ _ m', invoked (trace m) (trace m')) m.
Proof.
  intros Hr H1. unfold ecma_builtin_helper_array_heap_sort_helper. wlp_step.
  eapply wlp_mono; [apply heap_sort_build_first; [done|lia]|].
  intros r m1 Hpost. simpl in Hpost.
  assert (invoked (trace m) (trace m1)) as Hinv.
  { destruct Hpost as [Hok|Hpost]; [by apply first_ok_invoked|].
    destruct r as [v|].
    - destruct Hpost as ((t & Ht & Hcs) & _). exists t. by rewrite Hcs.
    - destruct Hpost as (_ & _ & Hlt). lia. }
  destruct r as [v|]; [by wlp_step|]. wlp_step.
  eapply wlp_mono; [apply heap_sort_extract_failure|].
  intros r m2 Hpost2.
  assert (invoked (trace m) (trace m2)).
  { eapply invoked_ext; [done|]. by eapply failure_post_ext. }
  destruct r; by wlp_step.
Qed.

(** X11.  With two values or more to sort ([right >= 1]) the callback is
    invoked at least once, whatever it answers. *)
Theorem heap_sort_invokes_callback fuel right compare_func m :
  sort_cb_contract compare_func →
  1 ≤ right → right < Z.of_nat (length (array_p m)) →
  2 * right + 2 < 2 ^ 32 → right < Z.of_nat fuel →
  ∃ v m' t,
    ecma_builtin_helper_array_heap_sort_helper fuel right compare_func m
      = Done v m'
    ∧ trace m' = trace m ++ t
    ∧ call_results t ≠ [].
Proof.
  intros Hcb H1 Hlen Hr Hfuel.
  destruct (proj1 (wp_done _ _ _)
              (wp_wlp _ _ _ _
                 (heap_sort_safe fuel right compare_func m Hcb Hr
                    ltac:(lia) Hlen Hfuel)
                 (heap_sort_invoked fuel right compare_func m Hr H1)))
    as (v & m' & Hrun & _ & t & Ht & Hne).
  by exists v, m', t.
Qed.

(** X12.  A sift-down returns [ECMA_VALUE_ERROR] exactly when an
    invocation of the callback failed: either none failed and it returns
    [ECMA_VALUE_EMPTY], or one failed, none before it did, none follows it
    and it returns [ECMA_VALUE_ERROR]; in both cases the slots up to [right]
    have only been permuted. *)
Theorem to_heap_failure_is_last fuel index right compare_func m :
  sort_cb_contract compare_func →
  0 ≤ index ≤ right → right < Z.of_nat (length (array_p m)) →
  2 * right + 2 < 2 ^ 32 → right < Z.of_nat fuel →
  ∃ v m',
    ecma_builtin_helper_array_to_heap fuel index right compare_func m
      = Done v m'
    ∧ array_p m' ≡ₚ array_p m
    ∧ ((v = ECMA_VALUE_EMPTY
        ∧ ∃ t, trace m' = trace m ++ t
               ∧ Forall (λ e, ¬ is_failed_call e) t)
       ∨ (v = ECMA_VALUE_ERROR
          ∧ ∃ t1 a b t2,
              trace m' = trace m ++ t1 ++ EvCall a b ECMA_VALUE_ERROR :: t2
              ∧ Forall (λ e, ¬ is_failed_call e) t1
              ∧ Forall (λ e, ¬ is_call e) t2)).
Proof.
  intros Hcb Hi Hlen Hr Hfuel.
  destruct (proj1 (wp_done _ _ _)
              (wp_wlp _ _ _ _
                 (to_heap_safe fuel index right compare_func m Hcb Hr Hi Hlen
                    Hfuel)
                 (wlp_conj _ _ _ _
                    (to_heap_failure fuel index right compare_func m)
                    (to_heap_perm fuel index right compare_func m Hr Hi))))
    as (v & m' & Hrun & _ & Hpost & Hpp).
  exists v, m'. split; [done|]. split; [by apply pperm_perm in Hpp|].
  exact Hpost.
Qed.

(** ** A node that is not below its children *)

Ltac wlp_call_num Hnum :=
  lazymatch goal with
  | |- wlp (call_sort_cb ?a ?b _) _ ?m =>
      let r := fresh "r" in
      let w := fresh "w" in
      let Hcb := fresh "Hcb" in
      let n := fresh "n" in
      let E := fresh "E" in
      apply wlp_call; intros r w Hcb;
      destruct (Hnum a b (cb_state m)) as [n E]; rewrite Hcb in E;
      simpl in E; subst r; norm
  end.

(** The loop body from [child], when neither child of its parent is after
    [swap]: the loop is left at once, with nothing written. *)
Lemma to_heap_body_stop right swap f tr0 child m :
  2 * right + 2 < 2 ^ 32 → 1 ≤ child →
  (∀ a b w, ∃ n, (sort_cb a b f w).1 = ecma_make_number_value n) →
  (∀ c w, child ≤ c ≤ right → c ≤ child + 1 →
     ∃ n, (sort_cb (slot (array_p m) c) swap f w).1 = ecma_make_number_value n
          ∧ n ≤ 0) →
  calls_le tr0 0 (trace m) →
  wlp (to_heap_body right swap f (child, ECMA_VALUE_EMPTY))
      (λ c m', match c with
               | Next l' => False
               | Brk l' => l' .2 = ECMA_VALUE_EMPTY
                           ∧ child ≤ l'.1 ≤ child + 1
                           ∧ array_p m' = array_p m
                           ∧ calls_le tr0 2 (trace m')
               end) m.
Proof.
  intros Hr Hc Hnum Hstop Hn. destruct m as [arr w tr]. simpl in *.
  cbv beta delta [to_heap_body to_heap_select_child to_heap_compare_swap].
  repeat first [wlp_call_num Hnum | wlp_step];
    lazymatch goal with
       | |- False =>
           match goal with
           | Hcb : sort_cb ?c swap f ?w0 = (ecma_make_number_value ?n0, _),
             Hl : arr !! Z.to_nat ?ch = Some ?c |- _ =>
               let n' := fresh "n'" in
               let E := fresh "E" in
               let Hle := fresh "Hle" in
               destruct (Hstop ch w0 ltac:(lia) ltac:(lia)) as (n' & E & Hle);
               rewrite (slot_lookup _ _ _ Hl), Hcb in E; simpl in E;
               injection E as E; lia
           end
       | |- _ =>
           split; [done|]; split; [simpl; lia|]; split; [done|];
           simpl; rewrite <-?app_assoc; simpl;
           eapply calls_le_app; [eassumption | simpl; lia]
       end.
Qed.

Lemma to_heap_stop fuel index right f m :
  2 * right + 2 < 2 ^ 32 → 0 ≤ index ≤ right →
  (∀ a b w, ∃ n, (sort_cb a b f w).1 = ecma_make_number_value n) →
  (∀ c w, 2 * index + 1 ≤ c ≤ right → c ≤ 2 * index + 2 →
     ∃ n, (sort_cb (slot (array_p m) c) (slot (array_p m) index) f w).1
          = ecma_make_number_value n ∧ n ≤ 0) →
  wlp (ecma_builtin_helper_array_to_heap fuel index right f)
      (λ v m', v = ECMA_VALUE_EMPTY ∧ array_p m' = array_p m
               ∧ calls_le (trace m) 2 (trace m')) m.
Proof.
  intros Hr Hi Hnum Hstop.
  cbv beta delta [ecma_builtin_helper_array_to_heap to_heap_loop].
  do 3 wlp_step. rename v into swap. wlp_step.
  assert (slot (array_p m) index = swap) as Hswap by (by apply slot_lookup).
  rewrite Hswap in Hstop.
  eapply wlp_mono.
  { apply wlp_while with
      (Inv := λ l m', l = (index * 2 + 1, ECMA_VALUE_EMPTY)
                      ∧ array_p m' = array_p m
                      ∧ calls_le (trace m) 0 (trace m'))
      (Q := λ l m', l.2 = ECMA_VALUE_EMPTY
                    ∧ 2 * index + 1 ≤ l.1 ≤ 2 * index + 2
                    ∧ array_p m' = array_p m
                    ∧ calls_le (trace m) 2 (trace m')).
    - split; [done|]. split; [done|]. simpl.
      eapply calls_le_app; [apply calls_le_refl|simpl; lia].
    - intros l m1 (-> & Harr & Hn) _.
      eapply wlp_mono.
      { apply (to_heap_body_stop right swap f (trace m)); try done; [lia|].
        rewrite Harr. intros c w Hc1 Hc2. apply Hstop; lia. }
      intros [l'|l'] m2 Hpost; [done|].
      destruct Hpost as (Hret & Hl' & Harr' & Hn').
      split; [done|]. split; [lia|]. split; [congruence|done].
    - intros l m1 (-> & Harr & Hn) _. simpl. split; [done|].
      split; [lia|]. split; [done|].
      eapply calls_le_trans; [exact Hn|apply calls_le_refl|lia]. }
  intros [child r] m1 (Hret & Hc & Harr & Hn). destruct m1 as [arr1 w1 tr1].
  simpl in *. subst r arr1. repeat wlp_step. simpl.
  replace ((child - 1) `div` 2) with index by lia.
  rewrite list_insert_id by done. split; [done|]. split; [done|].
  eapply calls_le_app; [exact Hn|simpl; lia].
Qed.

(** X13.  A sift-down from a slot whose children up to [right] are not
    after it changes nothing: for a callback that returns [cmp a b], if
    [cmp] of each child of [index] and slot [index] is at most zero, the
    call returns [ECMA_VALUE_EMPTY], the array is as it was, and the
    callback was invoked at most twice. *)
Theorem to_heap_node_in_place cmp fuel index right compare_func m :
  returns_cmp cmp compare_func →
  0 ≤ index ≤ right → right < Z.of_nat (length (array_p m)) →
  2 * right + 2 < 2 ^ 32 → right < Z.of_nat fuel →
  (∀ c, 2 * index + 1 ≤ c ≤ right → c ≤ 2 * index + 2 →
        cmp (slot (array_p m) c) (slot (array_p m) index) ≤ 0) →
  ∃ m' t,
    ecma_builtin_helper_array_to_heap fuel index right compare_func m
      = Done ECMA_VALUE_EMPTY m'
    ∧ array_p m' = array_p m
    ∧ trace m' = trace m ++ t
    ∧ (length (call_results t) ≤ 2)%nat.
Proof.
  intros Hcmp Hi Hlen Hr Hfuel Hnode.
  assert (wlp (ecma_builtin_helper_array_to_heap fuel index right compare_func)
            (λ v m', v = ECMA_VALUE_EMPTY ∧ array_p m' = array_p m
                     ∧ calls_le (trace m) 2 (trace m')) m) as Hstop.
  { apply to_heap_stop; [done|done| |].
    - intros a b w. exists (cmp a b). apply Hcmp.
    - intros c w Hc1 Hc2. exists (cmp (slot (array_p m) c) (slot (array_p m) index)).
      split; [apply Hcmp|by apply Hnode]. }
  destruct (proj1 (wp_done _ _ _)
              (wp_wlp _ _ _ _
                 (to_heap_safe fuel index right compare_func m
                    (returns_cmp_contract cmp compare_func Hcmp) Hr Hi Hlen
                    Hfuel)
                 Hstop))
    as (v & m' & Hrun & _ & -> & Harr & t & Ht & Hn).
  exists m', t. repeat split; try done. lia.
Qed.

(** ** A callback that never answers "after" *)

Lemma never_after_contract f : never_after f → sort_cb_contract f.
Proof. intros Hna a b w. right. destruct (Hna a b w) as (n & -> & _). done. Qed.

Lemma to_heap_never_after fuel index right f m :
  never_after f → 2 * right + 2 < 2 ^ 32 → 0 ≤ index ≤ right →
  wlp (ecma_builtin_helper_array_to_heap fuel index right f)
      (λ v m', v = ECMA_VALUE_EMPTY ∧ array_p m' = array_p m) m.
Proof.
  intros Hna Hr Hi. eapply wlp_mono.
  { apply to_heap_stop; [done|done| |].
    - intros a b w. destruct (Hna a b w) as (n & E & _). by exists n.
    - intros c w _ _. apply Hna. }
  intros v m' (-> & Harr & _). done.
Qed.

Lemma slot_lookup_eq (a b : list ecma_value_t) i j :
  (i < length a)%nat → (j < length b)%nat →
  slot a (Z.of_nat i) = slot b (Z.of_nat j) → a !! i = b !! j.
Proof.
  intros Hi Hj. unfold slot. rewrite !Nat2Z.id.
  destruct (lookup_lt_is_Some_2 a i Hi) as [x ->].
  destruct (lookup_lt_is_Some_2 b j Hj) as [y ->]. simpl. by intros ->.
Qed.

Lemma heap_sort_never_after fuel right f m :
  never_after f → 2 * right + 2 < 2 ^ 32 → 0 ≤ right →
  Z.of_nat (length (array_p m)) = right + 1 →
  wlp (ecma_builtin_helper_array_heap_sort_helper fuel right f)
      (λ v m', v = ECMA_VALUE_EMPTY
               ∧ array_p m' = drop 1 (array_p m) ++ take 1 (array_p m)) m.
Proof.
  intros Hna Hr H0 Hlen.
  unfold ecma_builtin_helper_array_heap_sort_helper. wlp_step.
  eapply wlp_mono.
  { unfold heap_sort_build. rewrite uint32_small by lia.
    apply wlp_for_down with
      (Inv := λ _ m', array_p m' = array_p m)
      (Q := λ r m', r = None ∧ array_p m' = array_p m); [done| |done].
    intros i m1 Hi Harr. rewrite Z2Nat.id in Hi by lia.
    rewrite uint32_small by lia. wlp_step.
    eapply wlp_mono; [apply to_heap_never_after; [done|done|lia]|].
    intros v m2 [-> Harr2]. wlp_step. congruence. }
  intros r m1 [-> Harr1]. wlp_step.
  eapply wlp_mono.
  { unfold heap_sort_extract.
    apply wlp_for_down with
      (Inv := λ i m',
         length (array_p m') = length (array_p m)
         ∧ (∀ j, 1 ≤ j ≤ i → slot (array_p m') j = slot (array_p m) j)
         ∧ (∀ j, i < j < right →
                 slot (array_p m') j = slot (array_p m) (j + 1))
         ∧ (i < right → slot (array_p m') right = slot (array_p m) 0)
         ∧ (i < right → slot (array_p m') 0 = slot (array_p m) (i + 1))
         ∧ (i = right → slot (array_p m') 0 = slot (array_p m) 0))
      (Q := λ r m',
         r = None
         ∧ length (array_p m') = length (array_p m)
         ∧ (∀ j, 0 ≤ j < right →
                 slot (array_p m') j = slot (array_p m) (j + 1))
         ∧ slot (array_p m') right = slot (array_p m) 0).
    - rewrite Harr1, Z2Nat.id by lia.
      split; [done|]. split; [done|]. split; [intros; lia|].
      split; [lia|]. split; [lia|done].
    - intros i m2 Hi (Hl & HA & HB & HC & HD & HE).
      rewrite Z2Nat.id in Hi by lia.
      destruct m2 as [arr2 w2 tr2]. cbn [array_p] in *.
      do 2 wlp_step. do 2 wlp_step. do 2 wlp_step. do 2 wlp_step. wlp_step.
      eapply wlp_mono; [apply to_heap_never_after; [done|lia|lia]|].
      intros v1 m3 [-> Harr3]. cbn [array_p] in Harr3. wlp_step.
      rewrite Harr3.
      match goal with
      | H1 : arr2 !! Z.to_nat 0 = Some ?x, H2 : arr2 !! Z.to_nat i = Some ?y
        |- _ => apply slot_lookup in H1; apply slot_lookup in H2;
                rename x into x0; rename y into xi
      end.
      assert (∀ j, 0 ≤ j ≤ right →
                slot (<[Z.to_nat i:=x0]> (<[Z.to_nat 0:=xi]> arr2)) j
                = if decide (j = i) then x0
                  else if decide (j = 0) then xi else slot arr2 j) as Hs.
      { intros j Hj. destruct (decide (j = i)) as [->|Hji].
        - rewrite slot_insert_eq; [done|rewrite length_insert; lia].
        - rewrite slot_insert_ne by lia.
          destruct (decide (j = 0)) as [->|Hj0].
          + rewrite slot_insert_eq; [done|lia].
          + by rewrite slot_insert_ne by lia. }
      split; [by rewrite !length_insert|].
      split; [|split; [|split; [|split]]].
      + intros j Hj. rewrite Hs by lia. repeat case_decide; try lia.
        apply HA. lia.
      + intros j Hj. rewrite Hs by lia. repeat case_decide; try lia.
        * subst j x0. destruct (decide (i = right)); [lia|]. apply HD. lia.
        * apply HB. lia.
      + intros Hlt. rewrite Hs by lia. repeat case_decide; try lia.
        * subst x0. rewrite HE by lia. done.
        * apply HC. lia.
      + intros Hlt. rewrite Hs by lia. repeat case_decide; try lia.
        subst xi. replace (i - 1 + 1) with i by lia. apply HA. lia.
      + intros Heq. lia.
    - intros m2 (Hl & HA & HB & HC & HD & HE). split; [done|].
      split; [done|]. split.
      + intros j Hj. destruct (decide (j = 0)) as [->|Hj0].
        * apply HD. lia.
        * apply HB. lia.
      + destruct (decide (right = 0)) as [->|Hne]; [by apply HE|].
        apply HC. lia. }
  intros r m2 (-> & Hl & Hshift & Hlast). wlp_step. split; [done|].
  rewrite <-Harr1 in *. clear Harr1.
  apply list_eq. intros k.
  destruct (decide (k < Z.to_nat right)%nat) as [Hk|Hk].
  - rewrite lookup_app_l by (rewrite length_drop; lia).
    rewrite lookup_drop. apply slot_lookup_eq; [lia|lia|].
    specialize (Hshift (Z.of_nat k) ltac:(lia)).
    by replace (Z.of_nat (1 + k)) with (Z.of_nat k + 1) by lia.
  - destruct (decide (k = Z.to_nat right)) as [->|Hne].
    + rewrite lookup_app_r by (rewrite length_drop; lia).
      rewrite length_drop.
      replace (Z.to_nat right - (length (array_p m1) - 1))%nat with 0%nat
        by lia.
      rewrite lookup_take_lt by lia.
      apply slot_lookup_eq; [lia|lia|]. by rewrite Z2Nat.id by lia.
    + rewrite !lookup_ge_None_2; [done| |lia].
      rewrite length_app, length_drop, length_take. lia.
Qed.

(** X14.  The sort is not stable.  With a callback that never answers
    "after" (it returns a number that is at most zero at every invocation:
    for example 0, all values being equal to it) the call returns
    [ECMA_VALUE_EMPTY] and leaves the array rotated by one slot: the value
    of slot 0 is moved to slot [right] and every other value one slot down. *)
Theorem heap_sort_rotates_equal_values fuel right compare_func arr w tr :
  never_after compare_func →
  0 ≤ right → Z.of_nat (length arr) = right + 1 →
  2 * right + 2 < 2 ^ 32 → right < Z.of_nat fuel →
  ∃ m',
    ecma_builtin_helper_array_heap_sort_helper fuel right compare_func
      (Machine arr w tr) = Done ECMA_VALUE_EMPTY m'
    ∧ array_p m' = drop 1 arr ++ take 1 arr.
Proof.
  intros Hna H0 Hlen Hr Hfuel.
  destruct (proj1 (wp_done _ _ _)
              (wp_wlp _ _ _ _
                 (heap_sort_safe fuel right compare_func (Machine arr w tr)
                    (never_after_contract compare_func Hna) Hr H0
                    ltac:(simpl; lia) Hfuel)
                 (heap_sort_never_after fuel right compare_func
                    (Machine arr w tr) Hna Hr H0 Hlen)))
    as (v & m' & Hrun & _ & -> & Harr).
  by exists m'.
Qed.

(** ** The slots after [right] *)

Lemma pperm_weaken {A} n n' (l' l : list A) :
  (n ≤ n')%nat → pperm n l' l → pperm n' l' l.
Proof.
  intros Hn [Hp Hd]. replace n' with (n + (n' - n))%nat by lia. split.
  - rewrite <-!take_take_drop. by rewrite Hp, Hd.
  - rewrite <-!drop_drop. by rewrite Hd.
Qed.

Lemma heap_sort_pperm fuel right f m :
  2 * right + 2 < 2 ^ 32 → 0 ≤ right →
  wlp (ecma_builtin_helper_array_heap_sort_helper fuel right f)
      (λ _ m', pperm (Z.to_nat (right + 1)) (array_p m') (array_p m)) m.
Proof.
  intros Hr H0. unfold ecma_builtin_helper_array_heap_sort_helper. wlp_step.
  eapply wlp_mono.
  { unfold heap_sort_build. rewrite uint32_small by lia.
    apply wlp_for_down with
      (Inv := λ _ m', pperm (Z.to_nat (right + 1)) (array_p m') (array_p m))
      (Q := λ _ m', pperm (Z.to_nat (right + 1)) (array_p m') (array_p m));
      [apply pperm_refl| |done].
    intros i m1 Hi Hp. rewrite Z2Nat.id in Hi by lia.
    rewrite uint32_small by lia. wlp_step.
    eapply wlp_mono; [apply to_heap_perm; [done|lia]|].
    intros v m2 Hp2. simpl in Hp2.
    assert (pperm (Z.to_nat (right + 1)) (array_p m2) (array_p m))
      by (by eapply pperm_trans).
    repeat wlp_step; done. }
  intros [v|] m1 Hp1; simpl in Hp1; [by wlp_step|]. wlp_step.
  eapply wlp_mono.
  { unfold heap_sort_extract.
    apply wlp_for_down with
      (Inv := λ _ m', pperm (Z.to_nat (right + 1)) (array_p m') (array_p m))
      (Q := λ _ m', pperm (Z.to_nat (right + 1)) (array_p m') (array_p m));
      [done| |done].
    intros i m2 Hi Hp2. rewrite Z2Nat.id in Hi by lia.
    destruct m2 as [arr2 w2 tr2]. cbn [array_p] in *.
    do 2 wlp_step. do 2 wlp_step. do 2 wlp_step. do 2 wlp_step. wlp_step.
    eapply wlp_mono; [apply to_heap_perm; [lia|lia]|].
    intros v3 m3 Hp3. cbn [array_p] in Hp3.
    assert (pperm (Z.to_nat (right + 1)) (array_p m3) (array_p m)).
    { eapply pperm_trans; [|exact Hp2].
      eapply pperm_trans; [eapply pperm_weaken; [|exact Hp3]; lia|].
      apply pperm_swap; [lia|lia|done|done]. }
    repeat wlp_step; done. }
  intros r m2 Hp2. simpl in Hp2. destruct r; by wlp_step.
Qed.

(** X15.  The sort works on the first [right + 1] slots of an array that
    may be longer: these are permuted among themselves, and every slot after
    [right] holds what it held, whatever the callback answers. *)
Theorem heap_sort_leaves_rest_of_array fuel right compare_func m :
  sort_cb_contract compare_func →
  0 ≤ right → right < Z.of_nat (length (array_p m)) →
  2 * right + 2 < 2 ^ 32 → right < Z.of_nat fuel →
  ∃ v m',
    ecma_builtin_helper_array_heap_sort_helper fuel right compare_func m
      = Done v m'
    ∧ take (Z.to_nat (right + 1)) (array_p m')
      ≡ₚ take (Z.to_nat (right + 1)) (array_p m)
    ∧ ∀ j, right < j → array_p m' !! Z.to_nat j = array_p m !! Z.to_nat j.
Proof.
  intros Hcb H0 Hlen Hr Hfuel.
  destruct (proj1 (wp_done _ _ _)
              (wp_wlp _ _ _ _
                 (heap_sort_safe fuel right compare_func m Hcb Hr H0 Hlen Hfuel)
                 (heap_sort_pperm fuel right compare_func m Hr H0)))
    as (v & m' & Hrun & _ & Hp & Hd).
  exists v, m'. split; [done|]. split; [done|]. intros j Hj.
  replace (Z.to_nat j)
    with (Z.to_nat (right + 1) + (Z.to_nat j - Z.to_nat (right + 1)))%nat
    by lia.
  by rewrite <-!lookup_drop, Hd.
Qed.

End Sort.

Arguments Machine {world} _ _ _.
Arguments array_p {world} _.
Arguments cb_state {world} _.
Arguments trace {world} _.
Arguments Done {world A} _ _.

(** ** The code run on the array [3, 1, 4, 1, 5] *)

(** The value returned and the array left by a sort of [arr] (all of it,
    [right] is its last index), with as much fuel as it has slots. *)
Definition run_sort {world} (cb : _ → _ → _ → world → _) (w : world)
    (arr : list ecma_value_t) : option (ecma_value_t * list ecma_value_t) :=
  match ecma_builtin_helper_array_heap_sort_helper world cb (length arr)
          (Z.of_nat (length arr) - 1) ECMA_VALUE_EMPTY (Machine arr w [])
  with
  | Done v m => Some (v, array_p m)
  | _ => None
  end.

Example sort_subtract :
  run_sort subtract_cb 0%nat (numbers [3; 1; 4; 1; 5])
  = Some (ECMA_VALUE_EMPTY, numbers [1; 1; 3; 4; 5]).
Proof. reflexivity. Qed.

Example sort_fails_at_first_call :
  run_sort (failing_cb 1) 0%nat (numbers [3; 1; 4; 1; 5])
  = Some (ECMA_VALUE_ERROR, numbers [3; 1; 4; 1; 5]).
Proof. reflexivity. Qed.

Example sort_fails_at_second_call :
  run_sort (failing_cb 2) 0%nat (numbers [3; 1; 4; 1; 5])
  = Some (ECMA_VALUE_ERROR, numbers [3; 1; 4; 1; 5]).
Proof. reflexivity. Qed.

Example sort_fails_at_fifth_call :
  run_sort (failing_cb 5) 0%nat (numbers [3; 1; 4; 1; 5])
  = Some (ECMA_VALUE_ERROR, numbers [5; 3; 4; 1; 1]).
Proof. reflexivity. Qed.

Example sort_fails_at_ninth_call :
  run_sort (failing_cb 9) 0%nat (numbers [3; 1; 4; 1; 5])
  = Some (ECMA_VALUE_ERROR, numbers [1; 3; 1; 4; 5]).
Proof. reflexivity. Qed.

Lemma failing_cb_contract k f : sort_cb_contract nat (failing_cb k) f.
Proof.
  intros a b w. unfold failing_cb. destruct (decide (S w = k)); simpl; auto.
Qed.

Lemma subtract_cb_returns f : returns_cmp nat subtract_cb number_cmp f.
Proof. by intros a b w. Qed.

Lemma subtract_cb_contract f : sort_cb_contract nat subtract_cb f.
Proof. intros a b w. by right. Qed.

Lemma number_cmp_total_order : sign_total_order number_cmp.
Proof. split; unfold number_cmp; intros; lia. Qed.

Lemma heap_sort_permutation_witness :
  ∃ v m',
    ecma_builtin_helper_array_heap_sort_helper nat (failing_cb 2) 5 4
      ECMA_VALUE_EMPTY (Machine (numbers [3; 1; 4; 1; 5]) 0%nat []) = Done v m'
    ∧ (v = ECMA_VALUE_EMPTY ∨ v = ECMA_VALUE_ERROR)
    ∧ array_p m' ≡ₚ numbers [3; 1; 4; 1; 5].
Proof.
  apply (heap_sort_permutation nat (failing_cb 2) 5 4 ECMA_VALUE_EMPTY
           (numbers [3; 1; 4; 1; 5]) 0%nat []);
    [apply failing_cb_contract | lia | reflexivity | reflexivity | lia].
Defined.

Lemma heap_sort_sorts_witness :
  ∃ m',
    ecma_builtin_helper_array_heap_sort_helper nat subtract_cb 5 4
      ECMA_VALUE_EMPTY (Machine (numbers [3; 1; 4; 1; 5]) 0%nat [])
    = Done ECMA_VALUE_EMPTY m'
    ∧ array_p m' ≡ₚ numbers [3; 1; 4; 1; 5]
    ∧ ∀ i x y,
        0 ≤ i < 4 →
        array_p m' !! Z.to_nat i = Some x →
        array_p m' !! Z.to_nat (i + 1) = Some y →
        number_cmp x y ≤ 0.
Proof.
  apply (heap_sort_sorts nat subtract_cb number_cmp 5 4 ECMA_VALUE_EMPTY
           (numbers [3; 1; 4; 1; 5]) 0%nat []);
    [apply subtract_cb_returns | apply number_cmp_total_order
    | lia | reflexivity | reflexivity | lia].
Defined.

Lemma to_heap_writes_swap_back_witness :
  ∃ swap child ret_value m1 m' t,
    numbers [3; 1; 4; 1; 5] !! Z.to_nat 0 = Some swap
    ∧ to_heap_loop nat (failing_cb 2) 5 4 swap ECMA_VALUE_EMPTY
        (uint32 (0 * 2 + 1), ECMA_VALUE_EMPTY)
        (log nat (EvRead 0 swap) (Machine (numbers [3; 1; 4; 1; 5]) 0%nat []))
      = Done (child, ret_value) m1
    ∧ trace m1 = [] ++ [EvRead 0 swap] ++ t ∧ child_moves t
    ∧ ecma_builtin_helper_array_to_heap nat (failing_cb 2) 5 0 4
        ECMA_VALUE_EMPTY (Machine (numbers [3; 1; 4; 1; 5]) 0%nat [])
      = Done ret_value m'
    ∧ (ret_value = ECMA_VALUE_EMPTY ∨ ret_value = ECMA_VALUE_ERROR)
    ∧ 0 ≤ (child - 1) `div` 2 ≤ 4
    ∧ m' = Machine (<[Z.to_nat ((child - 1) `div` 2) := swap]> (array_p m1))
             (cb_state m1)
             (trace m1 ++ [EvWrite ((child - 1) `div` 2) swap])
    ∧ array_p m' !! Z.to_nat ((child - 1) `div` 2) = Some swap.
Proof.
  apply (to_heap_writes_swap_back nat (failing_cb 2) 5 0 4 ECMA_VALUE_EMPTY
           (Machine (numbers [3; 1; 4; 1; 5]) 0%nat []));
    [apply failing_cb_contract | lia | simpl; lia | reflexivity | lia].
Defined.

(** A tie does not advance [child]: on [5, 7, 7] the callback returns zero
    for the two children (slots 1 and 2), so the left one is "not greater",
    and [child] stays 1. *)
Lemma select_child_tie_does_not_advance :
  1 < 2
  ∧ subtract_cb (ecma_make_number_value 7) (ecma_make_number_value 7)
      ECMA_VALUE_EMPTY 0%nat = (ecma_make_number_value 0, 1%nat)
  ∧ 0 ≤ 0
  ∧ to_heap_select_child nat subtract_cb 2 ECMA_VALUE_EMPTY
      (1, ECMA_VALUE_EMPTY) (Machine (numbers [5; 7; 7]) 0%nat [])
    = Done (Next (1, ECMA_VALUE_EMPTY))
        (Machine (numbers [5; 7; 7]) 1%nat
           [EvRead 1 (ecma_make_number_value 7);
            EvRead 2 (ecma_make_number_value 7);
            EvCall (ecma_make_number_value 7) (ecma_make_number_value 7)
              (ecma_make_number_value 0);
            EvFree (ecma_make_number_value 0)])
  ∧ ¬ ∃ m',
        to_heap_select_child nat subtract_cb 2 ECMA_VALUE_EMPTY
          (1, ECMA_VALUE_EMPTY) (Machine (numbers [5; 7; 7]) 0%nat [])
        = Done (Next (1 + 1, ECMA_VALUE_EMPTY)) m'.
Proof.
  split; [lia|]. split; [reflexivity|]. split; [lia|]. split; [reflexivity|].
  intros [m' Hm']. vm_compute in Hm'. discriminate Hm'.
Qed.

Lemma select_child_advances_when_negative_witness :
  to_heap_select_child nat subtract_cb 2 ECMA_VALUE_EMPTY
    (1, ECMA_VALUE_EMPTY) (Machine (numbers [5; 7; 9]) 0%nat [])
  = Done (Next (2, ECMA_VALUE_EMPTY))
      (Machine (numbers [5; 7; 9]) 1%nat
         ([] ++ [EvRead 1 (ecma_make_number_value 7);
                 EvRead (1 + 1) (ecma_make_number_value 9);
                 EvCall (ecma_make_number_value 7) (ecma_make_number_value 9)
                   (ecma_make_number_value (-2));
                 EvFree (ecma_make_number_value (-2))])).
Proof.
  apply (select_child_advances_when_negative nat subtract_cb 2
           ECMA_VALUE_EMPTY ECMA_VALUE_EMPTY 1 ECMA_VALUE_EMPTY
           (Machine (numbers [5; 7; 9]) 0%nat [])
           (ecma_make_number_value 7) (ecma_make_number_value 9) (-2) 1%nat);
    [lia | lia | reflexivity | reflexivity | reflexivity | reflexivity].
Defined.

Lemma heap_sort_first_failure_aborts_witness :
  ∃ v m',
    ecma_builtin_helper_array_heap_sort_helper nat (failing_cb 2) 5 4
      ECMA_VALUE_EMPTY (Machine (numbers [3; 1; 4; 1; 5]) 0%nat []) = Done v m'
    ∧ ((v = ECMA_VALUE_EMPTY
        ∧ ∃ t, trace m' = [] ++ t ∧ Forall (λ e, ¬ is_failed_call e) t)
       ∨ (v = ECMA_VALUE_ERROR
          ∧ ∃ t1 a b t2,
              trace m' = [] ++ t1 ++ EvCall a b ECMA_VALUE_ERROR :: t2
              ∧ Forall (λ e, ¬ is_failed_call e) t1
              ∧ Forall (λ e, ¬ is_call e) t2)).
Proof.
  apply (heap_sort_first_failure_aborts nat (failing_cb 2) 5 4 ECMA_VALUE_EMPTY
           (Machine (numbers [3; 1; 4; 1; 5]) 0%nat []));
    [apply failing_cb_contract | lia | simpl; lia | reflexivity | lia].
Defined.

Lemma heap_sort_first_call_fails_witness :
  ∃ v m' t,
    ecma_builtin_helper_array_heap_sort_helper nat (failing_cb 1) 5 4
      ECMA_VALUE_EMPTY (Machine (numbers [3; 1; 4; 1; 5]) 0%nat []) = Done v m'
    ∧ trace m' = [] ++ t
    ∧ (head (call_results t) = Some ECMA_VALUE_ERROR →
       v = ECMA_VALUE_ERROR ∧ array_p m' = numbers [3; 1; 4; 1; 5]
       ∧ call_results t = [ECMA_VALUE_ERROR]).
Proof.
  apply (heap_sort_first_call_fails nat (failing_cb 1) 5 4 ECMA_VALUE_EMPTY
           (numbers [3; 1; 4; 1; 5]) 0%nat []);
    [apply failing_cb_contract | lia | reflexivity | reflexivity | lia].
Defined.

Lemma to_heap_releases_outcomes_witness :
  ∃ v m' t,
    ecma_builtin_helper_array_to_heap nat (failing_cb 4) 5 0 4
      ECMA_VALUE_EMPTY (Machine (numbers [3; 1; 4; 1; 5]) 0%nat []) = Done v m'
    ∧ trace m' = [] ++ t
    ∧ ((v = ECMA_VALUE_EMPTY ∧ owner_after t = Idle)
       ∨ (v = ECMA_VALUE_ERROR ∧ owner_after t = Failed)).
Proof.
  apply (to_heap_releases_outcomes nat (failing_cb 4) 5 0 4 ECMA_VALUE_EMPTY
           (Machine (numbers [3; 1; 4; 1; 5]) 0%nat []));
    [apply failing_cb_contract | lia | simpl; lia | reflexivity | lia].
Defined.

Lemma heap_sort_build_root_is_greatest_witness :
  ∃ m',
    heap_sort_build nat subtract_cb 5 4 ECMA_VALUE_EMPTY
      (Machine (numbers [3; 1; 4; 1; 5]) 0%nat []) = Done None m'
    ∧ ∀ i top x,
        1 ≤ i ≤ 4 →
        array_p m' !! 0%nat = Some top → array_p m' !! Z.to_nat i = Some x →
        0 ≤ number_cmp top x.
Proof.
  apply (heap_sort_build_root_is_greatest nat subtract_cb number_cmp 5 4
           ECMA_VALUE_EMPTY (numbers [3; 1; 4; 1; 5]) 0%nat []);
    [apply subtract_cb_returns | apply number_cmp_total_order
    | lia | reflexivity | reflexivity | lia].
Defined.

Lemma accesses_in_range_witness :
  (∀ index, 0 ≤ index ≤ 4 →
     ∃ v m' t,
       ecma_builtin_helper_array_to_heap nat (failing_cb 3) 5 index 4
         ECMA_VALUE_EMPTY (Machine (numbers [3; 1; 4; 1; 5]) 0%nat [])
         = Done v m'
       ∧ trace m' = [] ++ t ∧ Forall (in_range 4) t)
  ∧ (∃ v m' t,
       ecma_builtin_helper_array_heap_sort_helper nat (failing_cb 3) 5 4
         ECMA_VALUE_EMPTY (Machine (numbers [3; 1; 4; 1; 5]) 0%nat [])
         = Done v m'
       ∧ trace m' = [] ++ t ∧ Forall (in_range 4) t).
Proof.
  apply (accesses_in_range nat (failing_cb 3) 5 4 ECMA_VALUE_EMPTY
           (Machine (numbers [3; 1; 4; 1; 5]) 0%nat []));
    [apply failing_cb_contract | lia | simpl; lia | reflexivity | lia].
Defined.

(** ** The further properties on concrete arrays *)

Example sort_equal :
  run_sort equal_cb 0%nat (numbers [3; 1; 4; 1; 5])
  = Some (ECMA_VALUE_EMPTY, numbers [1; 4; 1; 5; 3]).
Proof. reflexivity. Qed.

Lemma equal_cb_never_after f : never_after nat equal_cb f.
Proof. intros a b w. exists 0. by split. Qed.

Lemma numbers_strict l a b :
  a ∈ numbers l → b ∈ numbers l → number_cmp a b = 0 → a = b.
Proof.
  unfold numbers. intros (x & -> & _)%list_elem_of_fmap
    (y & -> & _)%list_elem_of_fmap. unfold number_cmp. simpl. intros H.
  f_equal. lia.
Qed.

Lemma to_heap_restores_heap_witness :
  ∃ m',
    ecma_builtin_helper_array_to_heap nat subtract_cb 5 0 4 ECMA_VALUE_EMPTY
      (Machine (numbers [1; 5; 4; 1; 3]) 0%nat []) = Done ECMA_VALUE_EMPTY m'
    ∧ heap_on number_cmp 0 4 (array_p m')
    ∧ pperm (Z.to_nat (4 + 1)) (array_p m') (numbers [1; 5; 4; 1; 3]).
Proof.
  apply (to_heap_restores_heap nat subtract_cb number_cmp 5 0 4
           ECMA_VALUE_EMPTY (Machine (numbers [1; 5; 4; 1; 3]) 0%nat []));
    [apply subtract_cb_returns | apply number_cmp_total_order
    | lia | simpl; lia | reflexivity | lia
    | intros c Hc; assert (c = 3 ∨ c = 4) as [-> | ->] by lia; by vm_compute].
Defined.

Lemma heap_sort_build_makes_heap_witness :
  ∃ m',
    heap_sort_build nat subtract_cb 5 4 ECMA_VALUE_EMPTY
      (Machine (numbers [3; 1; 4; 1; 5]) 0%nat []) = Done None m'
    ∧ array_p m' ≡ₚ numbers [3; 1; 4; 1; 5]
    ∧ ∀ c x y,
        1 ≤ c ≤ 4 →
        array_p m' !! Z.to_nat c = Some x →
        array_p m' !! Z.to_nat ((c - 1) `div` 2) = Some y →
        number_cmp x y ≤ 0.
Proof.
  apply (heap_sort_build_makes_heap nat subtract_cb number_cmp 5 4
           ECMA_VALUE_EMPTY (numbers [3; 1; 4; 1; 5]) 0%nat []);
    [apply subtract_cb_returns | apply number_cmp_total_order
    | lia | reflexivity | reflexivity | lia].
Defined.

Lemma heap_sort_extract_sorts_heap_witness :
  ∃ m',
    heap_sort_extract nat subtract_cb 5 4 ECMA_VALUE_EMPTY
      (Machine (numbers [5; 3; 4; 1; 1]) 0%nat []) = Done None m'
    ∧ array_p m' ≡ₚ numbers [5; 3; 4; 1; 1]
    ∧ ∀ i x y,
        0 ≤ i < 4 →
        array_p m' !! Z.to_nat i = Some x →
        array_p m' !! Z.to_nat (i + 1) = Some y →
        number_cmp x y ≤ 0.
Proof.
  apply (heap_sort_extract_sorts_heap nat subtract_cb number_cmp 5 4
           ECMA_VALUE_EMPTY (numbers [5; 3; 4; 1; 1]) 0%nat []);
    [apply subtract_cb_returns | apply number_cmp_total_order
    | lia | reflexivity | reflexivity | lia
    | intros c Hc;
      assert (c = 1 ∨ c = 2 ∨ c = 3 ∨ c = 4) as [-> | [-> | [-> | ->]]] by lia;
      by vm_compute].
Defined.

Lemma heap_sort_orders_all_pairs_witness :
  ∃ m',
    ecma_builtin_helper_array_heap_sort_helper nat subtract_cb 5 4
      ECMA_VALUE_EMPTY (Machine (numbers [3; 1; 4; 1; 5]) 0%nat [])
    = Done ECMA_VALUE_EMPTY m'
    ∧ ∀ i j x y,
        0 ≤ i ≤ j → j ≤ 4 →
        array_p m' !! Z.to_nat i = Some x →
        array_p m' !! Z.to_nat j = Some y →
        number_cmp x y ≤ 0.
Proof.
  apply (heap_sort_orders_all_pairs nat subtract_cb number_cmp 5 4
           ECMA_VALUE_EMPTY (numbers [3; 1; 4; 1; 5]) 0%nat []);
    [apply subtract_cb_returns | apply number_cmp_total_order
    | lia | reflexivity | reflexivity | lia].
Defined.

Lemma heap_sort_result_unique_witness :
  ∃ m',
    ecma_builtin_helper_array_heap_sort_helper nat subtract_cb 3 2
      ECMA_VALUE_EMPTY (Machine (numbers [3; 1; 4]) 0%nat [])
    = Done ECMA_VALUE_EMPTY m'
    ∧ array_p m' = numbers [1; 3; 4].
Proof.
  apply (heap_sort_result_unique nat subtract_cb number_cmp 3 2
           ECMA_VALUE_EMPTY (numbers [3; 1; 4]) (numbers [1; 3; 4]) 0%nat []);
    [apply subtract_cb_returns | apply number_cmp_total_order
    | apply numbers_strict
    | lia | reflexivity | reflexivity | lia
    | apply perm_swap
    | intros k Hk; assert (k = 0 ∨ k = 1) as [-> | ->] by lia; by vm_compute].
Defined.

Lemma to_heap_touches_only_index_to_right_witness :
  ∃ v m' t,
    ecma_builtin_helper_array_to_heap nat (failing_cb 3) 5 1 3
      ECMA_VALUE_EMPTY (Machine (numbers [3; 1; 4; 1; 5]) 0%nat []) = Done v m'
    ∧ trace m' = [] ++ t
    ∧ (∀ i x, EvRead i x ∈ t ∨ EvWrite i x ∈ t → 1 ≤ i ≤ 3)
    ∧ ∀ j, 0 ≤ j < 1 ∨ 3 < j →
           array_p m' !! Z.to_nat j = numbers [3; 1; 4; 1; 5] !! Z.to_nat j.
Proof.
  apply (to_heap_touches_only_index_to_right nat (failing_cb 3) 5 1 3
           ECMA_VALUE_EMPTY (Machine (numbers [3; 1; 4; 1; 5]) 0%nat []));
    [apply failing_cb_contract | lia | simpl; lia | reflexivity | lia].
Defined.

Lemma to_heap_invocations_bounded_witness :
  ∃ v m' t,
    ecma_builtin_helper_array_to_heap nat (failing_cb 3) 5 0 4
      ECMA_VALUE_EMPTY (Machine (numbers [3; 1; 4; 1; 5]) 0%nat []) = Done v m'
    ∧ trace m' = [] ++ t
    ∧ Z.of_nat (length (call_results t)) ≤ 2 * Z.log2 ((4 + 1) `div` (0 + 1)).
Proof.
  apply (to_heap_invocations_bounded nat (failing_cb 3) 5 0 4
           ECMA_VALUE_EMPTY (Machine (numbers [3; 1; 4; 1; 5]) 0%nat []));
    [apply failing_cb_contract | lia | simpl; lia | reflexivity | lia].
Defined.

Lemma heap_sort_invocations_bounded_witness :
  ∃ v m' t,
    ecma_builtin_helper_array_heap_sort_helper nat subtract_cb 5 4
      ECMA_VALUE_EMPTY (Machine (numbers [3; 1; 4; 1; 5]) 0%nat []) = Done v m'
    ∧ trace m' = [] ++ t
    ∧ Z.of_nat (length (call_results t)) ≤ (3 * 4 + 2) * Z.log2 (4 + 1).
Proof.
  apply (heap_sort_invocations_bounded nat subtract_cb 5 4
           ECMA_VALUE_EMPTY (Machine (numbers [3; 1; 4; 1; 5]) 0%nat []));
    [apply subtract_cb_contract | lia | simpl; lia | reflexivity | lia].
Defined.

Lemma heap_sort_compares_array_values_witness :
  ∃ v m' t,
    ecma_builtin_helper_array_heap_sort_helper nat (failing_cb 9) 5 4
      ECMA_VALUE_EMPTY (Machine (numbers [3; 1; 4; 1; 5]) 0%nat []) = Done v m'
    ∧ trace m' = [] ++ t
    ∧ ∀ a b r, EvCall a b r ∈ t →
               a ∈ numbers [3; 1; 4; 1; 5] ∧ b ∈ numbers [3; 1; 4; 1; 5].
Proof.
  apply (heap_sort_compares_array_values nat (failing_cb 9) 5 4
           ECMA_VALUE_EMPTY (numbers [3; 1; 4; 1; 5]) 0%nat []);
    [apply failing_cb_contract | lia | reflexivity | reflexivity | lia].
Defined.

Lemma to_heap_invokes_iff_child_witness :
  ∃ v m' t,
    ecma_builtin_helper_array_to_heap nat subtract_cb 5 2 4
      ECMA_VALUE_EMPTY (Machine (numbers [3; 1; 4; 1; 5]) 0%nat []) = Done v m'
    ∧ trace m' = [] ++ t
    ∧ (call_results t = [] ↔ 4 < 2 * 2 + 1)
    ∧ (4 < 2 * 2 + 1 →
       v = ECMA_VALUE_EMPTY ∧ array_p m' = numbers [3; 1; 4; 1; 5]).
Proof.
  apply (to_heap_invokes_iff_child nat subtract_cb 5 2 4
           ECMA_VALUE_EMPTY (Machine (numbers [3; 1; 4; 1; 5]) 0%nat []));
    [apply subtract_cb_contract | lia | simpl; lia | reflexivity | lia].
Defined.

Lemma heap_sort_invokes_callback_witness :
  ∃ v m' t,
    ecma_builtin_helper_array_heap_sort_helper nat (failing_cb 1) 2 1
      ECMA_VALUE_EMPTY (Machine (numbers [3; 1]) 0%nat []) = Done v m'
    ∧ trace m' = [] ++ t
    ∧ call_results t ≠ [].
Proof.
  apply (heap_sort_invokes_callback nat (failing_cb 1) 2 1
           ECMA_VALUE_EMPTY (Machine (numbers [3; 1]) 0%nat []));
    [apply failing_cb_contract | lia | simpl; lia | reflexivity | lia].
Defined.

Lemma to_heap_failure_is_last_witness :
  ∃ v m',
    ecma_builtin_helper_array_to_heap nat (failing_cb 3) 5 0 4
      ECMA_VALUE_EMPTY (Machine (numbers [3; 1; 4; 1; 5]) 0%nat []) = Done v m'
    ∧ array_p m' ≡ₚ numbers [3; 1; 4; 1; 5]
    ∧ ((v = ECMA_VALUE_EMPTY
        ∧ ∃ t, trace m' = [] ++ t ∧ Forall (λ e, ¬ is_failed_call e) t)
       ∨ (v = ECMA_VALUE_ERROR
          ∧ ∃ t1 a b t2,
              trace m' = [] ++ t1 ++ EvCall a b ECMA_VALUE_ERROR :: t2
              ∧ Forall (λ e, ¬ is_failed_call e) t1
              ∧ Forall (λ e, ¬ is_call e) t2)).
Proof.
  apply (to_heap_failure_is_last nat (failing_cb 3) 5 0 4
           ECMA_VALUE_EMPTY (Machine (numbers [3; 1; 4; 1; 5]) 0%nat []));
    [apply failing_cb_contract | lia | simpl; lia | reflexivity | lia].
Defined.

Lemma to_heap_node_in_place_witness :
  ∃ m' t,
    ecma_builtin_helper_array_to_heap nat subtract_cb 5 0 4 ECMA_VALUE_EMPTY
      (Machine (numbers [5; 3; 4; 1; 1]) 0%nat []) = Done ECMA_VALUE_EMPTY m'
    ∧ array_p m' = numbers [5; 3; 4; 1; 1]
    ∧ trace m' = [] ++ t
    ∧ (length (call_results t) ≤ 2)%nat.
Proof.
  apply (to_heap_node_in_place nat subtract_cb number_cmp 5 0 4
           ECMA_VALUE_EMPTY (Machine (numbers [5; 3; 4; 1; 1]) 0%nat []));
    [apply subtract_cb_returns | lia | simpl; lia | reflexivity | lia
    | intros c Hc1 Hc2; assert (c = 1 ∨ c = 2) as [-> | ->] by lia;
      by vm_compute].
Defined.

Lemma heap_sort_rotates_equal_values_witness :
  ∃ m',
    ecma_builtin_helper_array_heap_sort_helper nat equal_cb 5 4
      ECMA_VALUE_EMPTY (Machine (numbers [3; 1; 4; 1; 5]) 0%nat [])
    = Done ECMA_VALUE_EMPTY m'
    ∧ array_p m' = drop 1 (numbers [3; 1; 4; 1; 5])
                   ++ take 1 (numbers [3; 1; 4; 1; 5]).
Proof.
  apply (heap_sort_rotates_equal_values nat equal_cb 5 4
           ECMA_VALUE_EMPTY (numbers [3; 1; 4; 1; 5]) 0%nat []);
    [apply equal_cb_never_after | lia | reflexivity | reflexivity | lia].
Defined.

Lemma heap_sort_leaves_rest_of_array_witness :
  ∃ v m',
    ecma_builtin_helper_array_heap_sort_helper nat (failing_cb 4) 5 2
      ECMA_VALUE_EMPTY (Machine (numbers [3; 1; 4; 1; 5]) 0%nat []) = Done v m'
    ∧ take (Z.to_nat (2 + 1)) (array_p m')
      ≡ₚ take (Z.to_nat (2 + 1)) (numbers [3; 1; 4; 1; 5])
    ∧ ∀ j, 2 < j →
           array_p m' !! Z.to_nat j = numbers [3; 1; 4; 1; 5] !! Z.to_nat j.
Proof.
  apply (heap_sort_leaves_rest_of_array nat (failing_cb 4) 5 2
           ECMA_VALUE_EMPTY (Machine (numbers [3; 1; 4; 1; 5]) 0%nat []));
    [apply failing_cb_contract | lia | simpl; lia | reflexivity | lia].
Defined.
